(** * The per-node execution context ([ExecutionContext])

    A shallow embedding of
    [packages/core/src/node-execution-context/execute-context.ts]:
    the object a node's logic talks to while it runs.  JavaScript objects
    used as dictionaries are finite maps with string keys, arrays are lists,
    [null] and [undefined] are kept apart wherever the code tells them
    apart, and state that the class mutates through shared references (the
    run execution data, the abort signal, the logger) is threaded
    explicitly. *)

From Stdlib Require Import ZArith.
From stdpp Require Import gmap strings list fin_maps.

(** ** JavaScript values the class manipulates *)

(** [extra: { inputIndex, inputName }] of an [ApplicationError]. *)
Record ErrorExtra := {
  extra_inputIndex : Z;
  extra_inputName : string;
}.

Inductive JsError :=
  | ApplicationError (message : string) (extra : option ErrorExtra)
  | TypeError (message : string).

(** How a synchronous call ends: with a value or with an exception. *)
Inductive Completion (A : Type) :=
  | Return (value : A)
  | Throw (error : JsError).
Arguments Return {A} value.
Arguments Throw {A} error.

(** A settled promise. *)
Inductive Settled (A : Type) :=
  | Fulfilled (value : A)
  | Rejected (reason : string).
Arguments Fulfilled {A} value.
Arguments Rejected {A} reason.

(** [arr[i]] for a number [i] that is an integer: [None] is [undefined]
    (negative index or index past the end). *)
Definition js_index {A : Type} (arr : list A) (i : Z) : option A :=
  if decide (0 ≤ i)%Z then arr !! Z.to_nat i else None.

(** ** Data model *)

(** Modelled from the spec: the opaque id of a payload in the Binary Data
    Store, whose format is not part of this file.  Ids are scoped to an
    execution: an id tells the workflow and the execution it is stored
    under, and the file inside that execution. *)
Abbreviation BinaryId := (option string * option string * nat)%type.

(** Modelled from the spec: a binary-data reference, the opaque id with
    the mime and size metadata; the bytes are in the store. *)
Record IBinaryData := {
  id : BinaryId;
  mimeType : string;
  fileSize : N;
}.

Record INodeExecutionData := {
  json : string;
  binary : option (list (string * IBinaryData));
}.

(** [ITaskDataConnections]: channel name to one slot per input index; a
    slot is an item batch or [null]. *)
Abbreviation ITaskDataConnections := (gmap string (list (option (list INodeExecutionData)))).

Record ISourceData := {
  previousNode : string;
  previousNodeOutput : option Z;
  previousNodeRun : option Z;
}.

Abbreviation ITaskDataConnectionsSource := (gmap string (list (option ISourceData))).

Record IExecuteData := {
  data : ITaskDataConnections;
  source : option ITaskDataConnectionsSource;   (* [None] is [null] *)
}.

Record ITaskData := {
  startTime : Z;
  executionTime : Z;
  task_data : option ITaskDataConnections;
  inputOverride : option ITaskDataConnections;
}.

Record IRunData := {
  runData : gmap string (list ITaskData);
  lastNodeExecuted : option string;
}.

(** [IRunExecutionData]: the record shared by every context of one
    execution.  [waitTill] is a [Date], kept as its epoch milliseconds. *)
Record IRunExecutionData := {
  resultData : IRunData;
  waitTill : option Z;
  otherProperties : gmap string string;
}.

Inductive WorkflowExecuteMode :=
  | ModeCli | ModeError | ModeIntegrated | ModeInternal | ModeManual
  | ModeRetry | ModeTrigger | ModeWebhook.

Inductive ExecutionStatus :=
  | StatusCanceled | StatusCrashed | StatusError | StatusNew
  | StatusRunning | StatusSuccess | StatusUnknown | StatusWaiting.

Record Workflow := {
  workflow_id : option string;
  workflow_name : option string;
  workflow_settings : gmap string string;
}.

Record INode := {
  node_name : string;
  node_type : string;
  node_typeVersion : Z;
}.

(** [IWorkflowExecuteAdditionalData], as far as the class reads it.  The
    callbacks the engine installs are external code: the model keeps
    whether an optional callback is installed and records every call made
    to it in the world's event trace. *)
Record IWorkflowExecuteAdditionalData := {
  executionId : option string;
  has_setExecutionStatus : bool;
}.

(** Reference to the [AbortSignal] object handed to the constructor. *)
Inductive AbortSignalRef := TheAbortSignal.

Record ExecutionContext := {
  workflow : Workflow;
  node : INode;
  additionalData : IWorkflowExecuteAdditionalData;
  mode : WorkflowExecuteMode;
  runIndex : Z;
  connectionInputData : list INodeExecutionData;
  inputData : ITaskDataConnections;
  executeData : IExecuteData;
  abortSignal : option AbortSignalRef;   (* [None] is [undefined] *)
}.

(** ** Data addressing *)

(** What [getInputData] hands back: an item batch, or [undefined] when
    the array access runs past the end. *)
Inductive InputValue :=
  | Batch (items : list INodeExecutionData)
  | InputUndefined.

Definition input_error (message : string) (inputIndex : Z) (inputName : string) : JsError :=
  ApplicationError message
    (Some {| extra_inputIndex := inputIndex; extra_inputName := inputName |}).

Definition getInputData (ctx : ExecutionContext) (inputIndex : Z) (inputName : string)
    : Completion InputValue :=
  match inputData ctx !! inputName with
  | None =>
      (* nothing is connected to that input *)
      Return (Batch [])
  | Some slots =>
      if (Z.of_nat (length slots) <? inputIndex)%Z then
        Throw (input_error "Could not get input with given index" inputIndex inputName)
      else
        match js_index slots inputIndex with
        | Some None =>
            Throw (input_error "Value of input was not set" inputIndex inputName)
        | Some (Some items) => Return (Batch items)
        | None => Return InputUndefined
        end
  end.

(** The call with its default arguments, [inputIndex = 0] and
    [inputName = 'main']. *)
Definition getInputData_args (ctx : ExecutionContext)
    (inputIndex : option Z) (inputName : option string) : Completion InputValue :=
  getInputData ctx (default 0%Z inputIndex) (default "main" inputName).

(** What [getInputSourceData] hands back: [source[inputName][inputIndex]]
    is a provenance entry, [null], or [undefined]. *)
Inductive SourceValue :=
  | Source (entry : ISourceData)
  | SourceNull
  | SourceUndefined.

Definition getInputSourceData (ctx : ExecutionContext) (inputIndex : Z) (inputName : string)
    : Completion SourceValue :=
  match source (executeData ctx) with
  | None =>
      (* should never happen as the engine sets it automatically *)
      Throw (ApplicationError "Source data is missing" None)
  | Some src =>
      match src !! inputName with
      | None => Throw (TypeError "Cannot read properties of undefined")
      | Some slots =>
          match js_index slots inputIndex with
          | Some (Some entry) => Return (Source entry)
          | Some None => Return SourceNull
          | None => Return SourceUndefined
          end
      end
  end.

Definition getInputSourceData_args (ctx : ExecutionContext)
    (inputIndex : option Z) (inputName : option string) : Completion SourceValue :=
  getInputSourceData ctx (default 0%Z inputIndex) (default "main" inputName).

(** ** The shared run record, the logger and detached promises *)

(** Calls the context makes to its collaborators, oldest first. *)
Inductive Event :=
  | SetExecutionStatus (status : ExecutionStatus)
  | LoggerWarn (message : string).

Inductive DataDirection := DirInput | DirOutput.

(** [INodeExecutionData[][] | ExecutionBaseError] *)
Inductive ExecutionDataOrError :=
  | ExecutionData (items : list (list INodeExecutionData))
  | ExecutionError (message : string).

(** The arguments of [addExecutionDataFunctions], in call order; the run
    record it also receives is the one of the world it runs in. *)
Record AddExecutionDataArgs := {
  arg_type : DataDirection;
  arg_nodeName : string;
  arg_data : ExecutionDataOrError;
  arg_connectionType : string;
  arg_additionalData : IWorkflowExecuteAdditionalData;
  arg_sourceNodeName : string;
  arg_sourceNodeRunIndex : Z;
  arg_currentNodeRunIndex : Z;
}.

(** A [.catch] callback waiting for its promise: the closure keeps which
    of the two methods attached it and the node's name. *)
Record CatchReaction := {
  reaction_promise : Settled unit;
  reaction_direction : DataDirection;
  reaction_nodeName : string;
}.

Record World := {
  runExecutionData : IRunExecutionData;
  events : list Event;
  microtasks : list CatchReaction;
}.

Definition set_runExecutionData (r : IRunExecutionData) (w : World) : World :=
  {| runExecutionData := r; events := events w; microtasks := microtasks w |}.

Definition emit (e : Event) (w : World) : World :=
  {| runExecutionData := runExecutionData w;
     events := events w ++ [e];
     microtasks := microtasks w |}.

Definition enqueue (r : CatchReaction) (w : World) : World :=
  {| runExecutionData := runExecutionData w;
     events := events w;
     microtasks := microtasks w ++ [r] |}.

Definition set_waitTill (t : Z) (r : IRunExecutionData) : IRunExecutionData :=
  {| resultData := resultData r;
     waitTill := Some t;
     otherProperties := otherProperties r |}.

Definition putExecutionToWait (ctx : ExecutionContext) (t : Z) (w : World)
    : Settled unit * World :=
  let w1 := set_runExecutionData (set_waitTill t (runExecutionData w)) w in
  let w2 :=
    if has_setExecutionStatus (additionalData ctx)
    then emit (SetExecutionStatus StatusWaiting) w1
    else w1 in
  (Fulfilled tt, w2).

Definition dquote : string := String (Ascii.ascii_of_nat 34) EmptyString.

Definition direction_word (d : DataDirection) : string :=
  match d with DirInput => "input" | DirOutput => "output" end.

(** The text of the two warnings. *)
Definition logging_problem (d : DataDirection) (nodeName message : string) : string :=
  "There was a problem logging " +:+ direction_word d +:+ " data of node "
    +:+ dquote +:+ nodeName +:+ dquote +:+ ": " +:+ message.

(** Running one [.catch] callback: it logs when its promise was rejected
    and does nothing otherwise. *)
Definition run_reaction (r : CatchReaction) (w : World) : World :=
  match reaction_promise r with
  | Rejected message =>
      emit (LoggerWarn (logging_problem (reaction_direction r) (reaction_nodeName r) message)) w
  | Fulfilled _ => w
  end.

(** The event loop draining the pending callbacks after the node's
    synchronous code gave control back. *)
Definition run_microtasks (w : World) : World :=
  foldl (fun w r => run_reaction r w)
    {| runExecutionData := runExecutionData w; events := events w; microtasks := [] |}
    (microtasks w).

Record AddInputDataResult := { index : Z }.

(** The attempts already recorded for a node: the length of its entry in
    [runData], and zero without an entry. *)
Definition recorded_attempts (nodeName : string) (r : IRunExecutionData) : nat :=
  match runData (resultData r) !! nodeName with
  | Some runs => length runs
  | None => 0
  end.

(** The argument list both methods build for [addExecutionDataFunctions]:
    the direction, the node's name, the data, (the run record,) the
    connection type, the additional data, the node's name again, the run
    index of the context and the attempt index. *)
Definition add_data_args (direction : DataDirection) (ctx : ExecutionContext)
    (data : ExecutionDataOrError) (connectionType : string)
    (currentNodeRunIndex : Z) : AddExecutionDataArgs :=
  {| arg_type := direction;
     arg_nodeName := node_name (node ctx);
     arg_data := data;
     arg_connectionType := connectionType;
     arg_additionalData := additionalData ctx;
     arg_sourceNodeName := node_name (node ctx);
     arg_sourceNodeRunIndex := runIndex ctx;
     arg_currentNodeRunIndex := currentNodeRunIndex |}.

(** The warnings a settled promise leads to: one when it was rejected. *)
Definition warnings_of (direction : DataDirection) (nodeName : string)
    (promise : Settled unit) : list Event :=
  match promise with
  | Rejected message => [LoggerWarn (logging_problem direction nodeName message)]
  | Fulfilled _ => []
  end.

Section AddData.

(** [addExecutionDataFunctions] is imported from [NodeExecuteFunctions]:
    an asynchronous function, taken here by what it does to the shared
    record and by how the promise it returns settles. *)
Variable addExecutionDataFunctions :
  AddExecutionDataArgs -> IRunExecutionData -> Settled unit * IRunExecutionData.

Definition call_addExecutionDataFunctions (args : AddExecutionDataArgs) (w : World) : World :=
  let '(promise, r) := addExecutionDataFunctions args (runExecutionData w) in
  enqueue {| reaction_promise := promise;
             reaction_direction := arg_type args;
             reaction_nodeName := arg_nodeName args |}
    (set_runExecutionData r w).

Definition addInputData (ctx : ExecutionContext) (connectionType : string)
    (data : ExecutionDataOrError) (w : World) : Completion AddInputDataResult * World :=
  let nodeName := node_name (node ctx) in
  let currentNodeRunIndex :=
    match runData (resultData (runExecutionData w)) !! nodeName with
    | Some runs => Z.of_nat (length runs)
    | None => 0%Z
    end in
  let w1 :=
    call_addExecutionDataFunctions
      (add_data_args DirInput ctx data connectionType currentNodeRunIndex) w in
  (Return {| index := currentNodeRunIndex |}, w1).

Definition addOutputData (ctx : ExecutionContext) (connectionType : string)
    (currentNodeRunIndex : Z) (data : ExecutionDataOrError) (w : World)
    : Completion unit * World :=
  let w1 :=
    call_addExecutionDataFunctions
      (add_data_args DirOutput ctx data connectionType currentNodeRunIndex) w in
  (Return tt, w1).

End AddData.

(** ** Cancellation *)

Definition getExecutionCancelSignal (ctx : ExecutionContext) : option AbortSignalRef :=
  abortSignal ctx.

(** A handler is the caller's code.  What matters of it here: a tag that
    tells handlers apart, the handlers it registers in turn (through the
    context) while it runs, and whether it ends by throwing. *)
#[local] Unset Elimination Schemes.
Inductive Handler :=
  | MkHandler (tag : nat) (registers : list Handler) (throws : bool).
#[local] Set Elimination Schemes.

Definition handler_tag (h : Handler) : nat :=
  match h with MkHandler tag _ _ => tag end.
Definition handler_registers (h : Handler) : list Handler :=
  match h with MkHandler _ registers _ => registers end.
Definition handler_throws (h : Handler) : bool :=
  match h with MkHandler _ _ throws => throws end.

(** The closure [fn] built by one call of [onExecutionCancellation]: its
    identity, and what it captured ([this] and [handler]). *)
Record Listener := {
  listener_fn : nat;
  listener_this : ExecutionContext;
  listener_handler : Handler;
}.

Inductive SignalEvent :=
  | Added (fn : nat) (tag : nat)      (* addEventListener('abort', fn) *)
  | Removed (fn : nat)                (* removeEventListener('abort', fn) *)
  | Invoked (fn : nat) (tag : nat)    (* handler() called from fn *)
  | Reported (tag : nat).             (* exception of a handler, reported by the event target *)

(** The [AbortSignal] as an event target: its 'abort' listeners in
    registration order, the number of closures created so far (the
    identity of the next one), and what happened, oldest first. *)
Record AbortSignal := {
  listeners : list Listener;
  closures : nat;
  history : list SignalEvent;
}.

Definition new_signal : AbortSignal :=
  {| listeners := []; closures := 0; history := [] |}.

Definition registered_fns (s : AbortSignal) : list nat :=
  listener_fn <$> listeners s.

Definition record (e : SignalEvent) (s : AbortSignal) : AbortSignal :=
  {| listeners := listeners s; closures := closures s; history := history s ++ [e] |}.

(** [addEventListener] ignores a callback that is already registered. *)
Definition addEventListener (l : Listener) (s : AbortSignal) : AbortSignal :=
  if decide (listener_fn l ∈ registered_fns s) then s
  else
    {| listeners := listeners s ++ [l];
       closures := closures s;
       history := history s ++ [Added (listener_fn l) (handler_tag (listener_handler l))] |}.

Definition removeEventListener (fn : nat) (s : AbortSignal) : AbortSignal :=
  {| listeners := filter (fun l => listener_fn l ≠ fn) (listeners s);
     closures := closures s;
     history := history s ++ [Removed fn] |}.

(** Without a signal both optional calls are skipped; the closure that
    was built is then unreachable, so none is counted. *)
Definition onExecutionCancellation (ctx : ExecutionContext) (handler : Handler)
    (s : AbortSignal) : AbortSignal :=
  match abortSignal ctx with
  | None => s
  | Some _ =>
      let fn := {| listener_fn := closures s;
                   listener_this := ctx;
                   listener_handler := handler |} in
      addEventListener fn
        {| listeners := listeners s; closures := S (closures s); history := history s |}
  end.

(** The handler's own run: it is logged, registers what it registers, and
    may throw; the event target reports the exception and goes on. *)
Definition call_handler (this : ExecutionContext) (fn : nat) (handler : Handler)
    (s : AbortSignal) : AbortSignal :=
  let s1 := record (Invoked fn (handler_tag handler)) s in
  let s2 := foldl (fun s h => onExecutionCancellation this h s) s1 (handler_registers handler) in
  if handler_throws handler then record (Reported (handler_tag handler)) s2 else s2.

(** The body of [fn]. *)
Definition run_listener (l : Listener) (s : AbortSignal) : AbortSignal :=
  let s1 :=
    match abortSignal (listener_this l) with
    | None => s
    | Some _ => removeEventListener (listener_fn l) s
    end in
  call_handler (listener_this l) (listener_fn l) (listener_handler l) s1.

(** Firing 'abort': the listeners registered when the event is dispatched
    are called in order; one removed in the meantime is skipped, one added
    in the meantime is not called. *)
Definition dispatch_abort (s : AbortSignal) : AbortSignal :=
  foldl (fun s l => if decide (listener_fn l ∈ registered_fns s) then run_listener l s else s)
    s (listeners s).

(** What can happen to a signal during an execution. *)
Inductive SignalOp :=
  | Register (ctx : ExecutionContext) (handler : Handler)
  | Abort.

Definition signal_step (s : AbortSignal) (op : SignalOp) : AbortSignal :=
  match op with
  | Register ctx handler => onExecutionCancellation ctx handler s
  | Abort => dispatch_abort s
  end.

Definition run_signal (ops : list SignalOp) (s : AbortSignal) : AbortSignal :=
  foldl signal_step s ops.

(** Closures whose handler was called, with repetitions, oldest first. *)
Definition invoked_fns (h : list SignalEvent) : list nat :=
  omap (fun e => match e with Invoked fn _ => Some fn | _ => None end) h.

(** Handler tags called, and handler tags registered, with repetitions. *)
Definition invoked_tags (h : list SignalEvent) : list nat :=
  omap (fun e => match e with Invoked _ tag => Some tag | _ => None end) h.
Definition added_tags (h : list SignalEvent) : list nat :=
  omap (fun e => match e with Added _ tag => Some tag | _ => None end) h.

Definition count_nat (n : nat) (l : list nat) : nat :=
  length (filter (fun m => m = n) l).

(** ** Sub-workflow invocation *)

Record IExecuteWorkflowInfo := {
  info_id : option string;
  info_code : option string;
}.

(** The third argument of [additionalData.executeWorkflow]. *)
Record ExecuteWorkflowOptions := {
  parentWorkflowId : option string;
  options_inputData : option (list INodeExecutionData);
  parentWorkflowSettings : gmap string string;
  options_node : INode;
  parentCallbackManager : option string;
}.

(** What a sub-workflow hands back: one slot per output, a slot being an
    item batch or [null]. *)
Abbreviation WorkflowOutput := (list (option (list INodeExecutionData))).

(** Modelled from the spec: the Binary Data Store, which is not part of
    this file.  Payloads live in the store under an opaque id scoped to a
    workflow and an execution; a reference in an item carries the id and
    the mime/size metadata, never the bytes. *)
Abbreviation BinaryStore := (gmap BinaryId (list Byte.byte)).

(** A computation over the store that ends like a promise. *)
Definition Dup (A : Type) : Type := BinaryStore -> Settled A * BinaryStore.

#[export] Instance Dup_ret : MRet Dup :=
  fun A a store => (Fulfilled a, store).

#[export] Instance Dup_bind : MBind Dup :=
  fun A B f m store =>
    match m store with
    | (Fulfilled a, store1) => f a store1
    | (Rejected reason, store1) => (Rejected reason, store1)
    end.

(** Modelled from the spec: the file numbers the payloads of the store
    have. *)
Definition used_files (store : BinaryStore) : gset nat :=
  set_map (fun k : BinaryId => k.2) (dom store).

(** Modelled from the spec: the file number of the next duplicate, one
    that no payload of the store has. *)
Definition fresh_file (store : BinaryStore) : nat := fresh (used_files store).

(** Modelled from the spec: the store's duplicate-by-id operation, which
    is not part of this file.  The payload is copied under a new id scoped
    to the given workflow and execution, and the reference returned
    carries that id with the metadata unchanged; duplicating an id the
    store does not hold fails. *)
Definition duplicate_reference (workflowId executionId : option string)
    (ref : IBinaryData) : Dup IBinaryData :=
  fun store =>
    match store !! id ref with
    | None => (Rejected "binary data not found", store)
    | Some bytes =>
        let new_id : BinaryId := (workflowId, executionId, fresh_file store) in
        (Fulfilled {| id := new_id; mimeType := mimeType ref; fileSize := fileSize ref |},
         <[new_id := bytes]> store)
    end.

(** Modelled from the spec: the reference held by one binary property of
    an item is duplicated; the property keeps its name. *)
Definition duplicate_property (workflowId executionId : option string)
    (p : string * IBinaryData) : Dup (string * IBinaryData) :=
  ref ← duplicate_reference workflowId executionId p.2; mret (p.1, ref).

(** Modelled from the spec: every reference of an item is duplicated;
    the rest of the item is kept. *)
Definition duplicate_item (workflowId executionId : option string)
    (item : INodeExecutionData) : Dup INodeExecutionData :=
  match binary item with
  | None => mret item
  | Some properties =>
      properties' ← mapM (duplicate_property workflowId executionId) properties;
      mret {| json := json item; binary := Some properties' |}
  end.

(** Modelled from the spec: every item of a slot is duplicated; an unset
    slot stays unset. *)
Definition duplicate_slot (workflowId executionId : option string)
    (slot : option (list INodeExecutionData)) : Dup (option (list INodeExecutionData)) :=
  match slot with
  | None => mret None
  | Some items =>
      items' ← mapM (duplicate_item workflowId executionId) items; mret (Some items')
  end.

(** Modelled from the spec: [BinaryDataService.duplicateBinaryData], which
    is not part of this file: every binary-data reference of the given
    output is duplicated under the given workflow and execution. *)
Definition duplicateBinaryData (workflowId executionId : option string)
    (inputData : WorkflowOutput) : Dup WorkflowOutput :=
  mapM (duplicate_slot workflowId executionId) inputData.

Section ExecuteWorkflow.

(** [additionalData.executeWorkflow], the engine's sub-workflow invoker:
    external code, taken by the promise it returns and by what the
    nested execution leaves in the binary data store. *)
Variable additionalData_executeWorkflow :
  IExecuteWorkflowInfo -> IWorkflowExecuteAdditionalData -> ExecuteWorkflowOptions ->
  BinaryStore -> Settled WorkflowOutput * BinaryStore.

Definition executeWorkflow_options (ctx : ExecutionContext)
    (inputData : option (list INodeExecutionData))
    (parentCallbackManager : option string) : ExecuteWorkflowOptions :=
  {| parentWorkflowId := workflow_id (workflow ctx);
     options_inputData := inputData;
     parentWorkflowSettings := workflow_settings (workflow ctx);
     options_node := node ctx;
     parentCallbackManager := parentCallbackManager |}.

Definition executeWorkflow (ctx : ExecutionContext) (workflowInfo : IExecuteWorkflowInfo)
    (inputData : option (list INodeExecutionData))
    (parentCallbackManager : option string) : Dup WorkflowOutput :=
  fun store =>
    match additionalData_executeWorkflow workflowInfo (additionalData ctx)
            (executeWorkflow_options ctx inputData parentCallbackManager) store with
    | (Fulfilled result, store1) =>
        duplicateBinaryData (workflow_id (workflow ctx))
          (executionId (additionalData ctx)) result store1
    | (Rejected reason, store1) => (Rejected reason, store1)
    end.

End ExecuteWorkflow.

(** Every binary-data reference of an output, in order. *)
Definition item_references (item : INodeExecutionData) : list IBinaryData :=
  match binary item with
  | None => []
  | Some properties => properties.*2
  end.

Definition output_references (out : WorkflowOutput) : list IBinaryData :=
  slot ← out; item ← default [] slot; item_references item.

(** ** Invariants of the abort signal *)

Definition listener_tags (s : AbortSignal) : list nat :=
  (fun l => handler_tag (listener_handler l)) <$> listeners s.

(** Every call of a handler comes right after the removal of the closure
    that makes it. *)
Definition removal_first (h : list SignalEvent) : Prop :=
  forall pre fn tag post,
    h = pre ++ Invoked fn tag :: post -> last pre = Some (Removed fn).

Record signal_inv (s : AbortSignal) : Prop := {
  inv_nodup : NoDup (registered_fns s);
  inv_bound : forall fn, fn ∈ registered_fns s -> fn < closures s;
  inv_signal : forall l, l ∈ listeners s -> abortSignal (listener_this l) = Some TheAbortSignal;
  inv_once : NoDup (invoked_fns (history s));
  inv_gone : forall fn, fn ∈ invoked_fns (history s) -> fn < closures s ∧ fn ∉ registered_fns s;
  inv_count : forall t,
    count_nat t (invoked_tags (history s)) + count_nat t (listener_tags s)
      = count_nat t (added_tags (history s));
  inv_order : removal_first (history s);
}.

(** What registrations can do to the listeners: those present stay, and
    a new one has the identity of a closure created since. *)
Definition grows (s s' : AbortSignal) : Prop :=
  closures s ≤ closures s' ∧
  (forall l, l ∈ listeners s -> l ∈ listeners s') ∧
  (forall fn, fn ∈ registered_fns s' -> fn ∈ registered_fns s ∨ closures s ≤ fn).

(** The state in which the handler of [l] starts to run. *)
Definition before_handler (l : Listener) (s : AbortSignal) : AbortSignal :=
  record (Invoked (listener_fn l) (handler_tag (listener_handler l)))
    (removeEventListener (listener_fn l) s).

(** The listeners of the snapshot that are still to be visited: each is
    either still registered as it is, or its closure is registered no
    more. *)
Definition pending (rest : list Listener) (s : AbortSignal) : Prop :=
  forall l, l ∈ rest ->
    listener_fn l < closures s ∧ (l ∈ listeners s ∨ listener_fn l ∉ registered_fns s).

(** ** What re-homing an output means *)

(** [new] is a duplicate of [old] homed under the given workflow and
    execution: its id lies in that scope, was free in the store before,
    holds a payload after, and that payload is the one [old] had before;
    the metadata is the same. *)
Definition rehomed (workflowId executionId : option string) (before after : BinaryStore)
    (old new : IBinaryData) : Prop :=
  (id new).1 = (workflowId, executionId) ∧
  before !! id new = None ∧
  is_Some (after !! id new) ∧
  (forall bytes, before !! id old = Some bytes -> after !! id new = Some bytes) ∧
  mimeType new = mimeType old ∧
  fileSize new = fileSize old.

Definition property_rehomed (workflowId executionId : option string)
    (before after : BinaryStore) (old new : string * IBinaryData) : Prop :=
  new.1 = old.1 ∧ rehomed workflowId executionId before after old.2 new.2.

Definition item_rehomed (workflowId executionId : option string)
    (before after : BinaryStore) (old new : INodeExecutionData) : Prop :=
  json new = json old ∧
  option_Forall2 (Forall2 (property_rehomed workflowId executionId before after))
    (binary old) (binary new).

Definition slot_rehomed (workflowId executionId : option string)
    (before after : BinaryStore) (old new : option (list INodeExecutionData)) : Prop :=
  option_Forall2 (Forall2 (item_rehomed workflowId executionId before after)) old new.

Definition output_rehomed (workflowId executionId : option string)
    (before after : BinaryStore) (old new : WorkflowOutput) : Prop :=
  Forall2 (slot_rehomed workflowId executionId before after) old new.

Definition resolves (store : BinaryStore) (ref : IBinaryData) : Prop :=
  is_Some (store !! id ref).

Definition slot_references (slot : option (list INodeExecutionData)) : list IBinaryData :=
  item ← default [] slot; item_references item.

(** ** Concrete contexts and worlds *)

Definition plain_item (payload : string) : INodeExecutionData :=
  {| json := payload; binary := None |}.

Definition order_workflow : Workflow :=
  {| workflow_id := Some "wf-42"; workflow_name := Some "Orders"; workflow_settings := ∅ |}.

Definition merge_node : INode :=
  {| node_name := "Merge"; node_type := "n8n-nodes-base.merge"; node_typeVersion := 3 |}.

Definition upstream (name : string) : ISourceData :=
  {| previousNode := name; previousNodeOutput := Some 0%Z; previousNodeRun := Some 0%Z |}.

(** Two slots on [main], the second one unset; nothing else connected. *)
Definition merge_inputs : ITaskDataConnections :=
  {[ "main" := [Some [plain_item "a"; plain_item "b"]; None] ]}.

Definition merge_sources : ITaskDataConnectionsSource :=
  {[ "main" := [Some (upstream "Fetch"); None] ]}.

Definition make_context (source : option ITaskDataConnectionsSource)
    (setter : bool) (signal : option AbortSignalRef) : ExecutionContext :=
  {| workflow := order_workflow;
     node := merge_node;
     additionalData := {| executionId := Some "1001"; has_setExecutionStatus := setter |};
     mode := ModeManual;
     runIndex := 0;
     connectionInputData := [plain_item "a"; plain_item "b"];
     inputData := merge_inputs;
     executeData := {| data := merge_inputs; source := source |};
     abortSignal := signal |}.

Definition merge_context : ExecutionContext :=
  make_context (Some merge_sources) true (Some TheAbortSignal).

(** The same node run by an engine that set no provenance, installed no
    status setter and passed no abort signal. *)
Definition bare_context : ExecutionContext :=
  make_context None false None.

Definition empty_record : IRunExecutionData :=
  {| resultData := {| runData := ∅; lastNodeExecuted := None |};
     waitTill := None;
     otherProperties := {[ "pushRef" := "session-9" ]} |}.

Definition fresh_world : World :=
  {| runExecutionData := empty_record; events := []; microtasks := [] |}.

Definition append_run (nodeName : string) (task : ITaskData) (r : IRunExecutionData)
    : IRunExecutionData :=
  {| resultData :=
       {| runData :=
            <[nodeName := default [] (runData (resultData r) !! nodeName) ++ [task]]>
              (runData (resultData r));
          lastNodeExecuted := lastNodeExecuted (resultData r) |};
     waitTill := waitTill r;
     otherProperties := otherProperties r |}.

(** A stand-in for [addExecutionDataFunctions]: it refuses the [main]
    connection, and otherwise records input data as a new attempt of the
    node. *)
Definition recording_helper (args : AddExecutionDataArgs) (r : IRunExecutionData)
    : Settled unit * IRunExecutionData :=
  if decide (arg_connectionType args = "main") then
    (Rejected "Setting the type is not supported for the main connection", r)
  else
    match arg_type args with
    | DirInput =>
        (Fulfilled tt,
         append_run (arg_nodeName args)
           {| startTime := 0; executionTime := 0; task_data := None;
              inputOverride := None |} r)
    | DirOutput => (Fulfilled tt, r)
    end.

Definition logger (tag : nat) : Handler := MkHandler tag [] false.

(** A handler that registers a follow-up handler and then throws. *)
Definition restless (tag : nat) : Handler := MkHandler tag [logger (S tag)] true.

Definition report_id : BinaryId := (Some "wf-sub", Some "2002", 0).

Definition report_bytes : list Byte.byte := [Byte.x25; Byte.x50; Byte.x44; Byte.x46].

Definition report_item : INodeExecutionData :=
  {| json := "{}";
     binary := Some [("data", {| id := report_id; mimeType := "application/pdf"; fileSize := 4 |})] |}.

Definition sub_workflow : IExecuteWorkflowInfo :=
  {| info_id := Some "wf-sub"; info_code := None |}.

(** A nested execution that stores one payload under its own execution
    and returns one item referring to it. *)
Definition nested_run (workflowInfo : IExecuteWorkflowInfo)
    (additionalData : IWorkflowExecuteAdditionalData) (options : ExecuteWorkflowOptions)
    (store : BinaryStore) : Settled WorkflowOutput * BinaryStore :=
  (Fulfilled [Some [plain_item "summary"; report_item]; None],
   <[report_id := report_bytes]> store).

(** ** Sequences of calls on one run record *)

(** A call a node's logic makes on the context during its run. *)
Inductive ContextCall :=
  | CallAddInput (ctx : ExecutionContext) (connectionType : string)
      (data : ExecutionDataOrError)
  | CallAddOutput (ctx : ExecutionContext) (connectionType : string)
      (currentNodeRunIndex : Z) (data : ExecutionDataOrError)
  | CallWait (ctx : ExecutionContext) (t : Z).

(** The status notifications a sequence of calls makes, in call order. *)
Definition status_events (calls : list ContextCall) : list Event :=
  c ← calls;
  match c with
  | CallWait ctx _ =>
      if has_setExecutionStatus (additionalData ctx)
      then [SetExecutionStatus StatusWaiting] else []
  | _ => []
  end.

(** The warnings the pending callbacks will log. *)
Definition pending_warnings (reactions : list CatchReaction) : list Event :=
  r ← reactions;
  warnings_of (reaction_direction r) (reaction_nodeName r) (reaction_promise r).

Section Calls.

Variable helper : AddExecutionDataArgs -> IRunExecutionData -> Settled unit * IRunExecutionData.

Definition run_call (w : World) (c : ContextCall) : World :=
  match c with
  | CallAddInput ctx connectionType data =>
      (addInputData helper ctx connectionType data w).2
  | CallAddOutput ctx connectionType currentNodeRunIndex data =>
      (addOutputData helper ctx connectionType currentNodeRunIndex data w).2
  | CallWait ctx t => (putExecutionToWait ctx t w).2
  end.

Definition run_calls (calls : list ContextCall) (w : World) : World :=
  foldl run_call w calls.

(** The arguments a call hands to [addExecutionDataFunctions], if it
    calls it. *)
Definition helper_args (w : World) (c : ContextCall) : option AddExecutionDataArgs :=
  match c with
  | CallAddInput ctx connectionType data =>
      Some (add_data_args DirInput ctx data connectionType
              (Z.of_nat (recorded_attempts (node_name (node ctx)) (runExecutionData w))))
  | CallAddOutput ctx connectionType currentNodeRunIndex data =>
      Some (add_data_args DirOutput ctx data connectionType currentNodeRunIndex)
  | CallWait _ _ => None
  end.

(** The warning a call leads to: one when the helper's promise is
    rejected. *)
Definition call_warnings (w : World) (c : ContextCall) : list Event :=
  match helper_args w c with
  | Some args =>
      warnings_of (arg_type args) (arg_nodeName args) (helper args (runExecutionData w)).1
  | None => []
  end.

Fixpoint rejected_warnings (calls : list ContextCall) (w : World) : list Event :=
  match calls with
  | [] => []
  | c :: calls => call_warnings w c ++ rejected_warnings calls (run_call w c)
  end.

End Calls.

(** ** Listeners that stay quiet *)

(** A listener whose handler registers no handler in turn. *)
Definition quiet (l : Listener) : Prop := handler_registers (listener_handler l) = [].

(** ** Console output of a node *)

(** An argument of [logNodeOutput] / [sendMessageToUI], by what the code
    asks of it: [null] and [undefined] have no properties; an object with
    a truthy [isLuxonDateTime] has a [ts] and an [invalidReason]; a [Date]
    has a time value, [None] when it is invalid; any other value is
    passed around as it is. *)
Inductive ConsoleArg :=
  | ArgNull
  | ArgUndefined
  | ArgLuxon (ts : Z) (invalidReason : option string)
  | ArgDate (time : option Z)
  | ArgValue (repr : string).

(** An entry of the message sent to the UI. *)
Inductive UiValue :=
  | UiText (text : string)                               (* a date, by [toString] *)
  | UiSpread (ts : Z) (invalidReason : option string)    (* [{ ...arg }] *)
  | UiArg (arg : ConsoleArg).                            (* the argument itself *)

Inductive OutputEvent :=
  | SendDataToUI (type : string) (source : string) (messages : list UiValue)
  | Warn (message : string)
  | ConsoleLog (prefix : string) (args : list ConsoleArg).

Definition error_message (e : JsError) : string :=
  match e with
  | ApplicationError message _ => message
  | TypeError message => message
  end.

(** A string is truthy unless it is empty; [null] is not. *)
Definition truthy_string (s : option string) : bool :=
  match s with
  | Some (String _ _) => true
  | _ => false
  end.

(** [new Date(ts)]: a time value past 8.64e15 ms either way is no date. *)
Definition new_Date (ts : Z) : option Z :=
  if decide (Z.abs ts ≤ 8640000000000000)%Z then Some ts else None.

(** [args.map(f)]: left to right, given up at the first exception. *)
Fixpoint map_completion {A B : Type} (f : A -> Completion B) (l : list A)
    : Completion (list B) :=
  match l with
  | [] => Return []
  | x :: l =>
      match f x with
      | Throw e => Throw e
      | Return y =>
          match map_completion f l with
          | Throw e => Throw e
          | Return ys => Return (y :: ys)
          end
      end
  end.

Definition ui_source (ctx : ExecutionContext) : string :=
  "[Node: " +:+ dquote +:+ node_name (node ctx) +:+ dquote +:+ "]".

Definition stdout_prefix (ctx : ExecutionContext) : string :=
  "[Workflow " +:+ dquote +:+ default "undefined" (workflow_id (workflow ctx)) +:+ dquote
    +:+ "][Node " +:+ dquote +:+ node_name (node ctx) +:+ dquote +:+ "]".

Section NodeOutput.

(** [Date.prototype.toString], which depends on the time zone of the
    process. *)
Variable Date_toString : option Z -> string.

(** [additionalData.sendDataToUI], when the engine installed it: external
    code that may throw. *)
Variable sendDataToUI : option (string -> string -> list UiValue -> Completion unit).

(** [process.env.CODE_ENABLE_STDOUT] *)
Variable CODE_ENABLE_STDOUT : option string.

(** The callback of [args.map] in [sendMessageToUI]. *)
Definition to_ui_value (arg : ConsoleArg) : Completion UiValue :=
  match arg with
  | ArgNull =>
      Throw (TypeError "Cannot read properties of null (reading 'isLuxonDateTime')")
  | ArgUndefined =>
      Throw (TypeError "Cannot read properties of undefined (reading 'isLuxonDateTime')")
  | ArgLuxon ts invalidReason =>
      if truthy_string invalidReason
      then Return (UiSpread ts invalidReason)   (* invalid dates are not logged as null *)
      else Return (UiText (Date_toString (new_Date ts)))
  | ArgDate time => Return (UiText (Date_toString time))
  | ArgValue _ => Return (UiArg arg)
  end.

(** The body of the [try] block. *)
Definition send_console_message (ctx : ExecutionContext) (args : list ConsoleArg)
    (log : list OutputEvent) : Completion unit * list OutputEvent :=
  match sendDataToUI with
  | None => (Return tt, log)
  | Some send =>
      match map_completion to_ui_value args with
      | Throw e => (Throw e, log)
      | Return messages =>
          (send "sendConsoleMessage" (ui_source ctx) messages,
           log ++ [SendDataToUI "sendConsoleMessage" (ui_source ctx) messages])
      end
  end.

Definition sendMessageToUI (ctx : ExecutionContext) (args : list ConsoleArg)
    (log : list OutputEvent) : Completion unit * list OutputEvent :=
  match mode ctx with
  | ModeManual =>
      match send_console_message ctx args log with
      | (Throw error, log1) =>
          (Return tt,
           log1 ++ [Warn ("There was a problem sending message to UI: "
                            +:+ error_message error)])
      | (Return _, log1) => (Return tt, log1)
      end
  | _ => (Return tt, log)
  end.

Definition logNodeOutput (ctx : ExecutionContext) (args : list ConsoleArg)
    (log : list OutputEvent) : Completion unit * list OutputEvent :=
  match mode ctx with
  | ModeManual => sendMessageToUI ctx args log
  | _ =>
      if decide (CODE_ENABLE_STDOUT = Some "true")
      then (Return tt, log ++ [ConsoleLog (stdout_prefix ctx) args])
      else (Return tt, log)
  end.

End NodeOutput.

(** An argument that has properties to read. *)
Definition has_properties (arg : ConsoleArg) : Prop :=
  arg ≠ ArgNull ∧ arg ≠ ArgUndefined.


Definition is_warning (e : OutputEvent) : Prop :=
  match e with Warn _ => True | _ => False end.
Definition is_ui_message (e : OutputEvent) : Prop :=
  match e with SendDataToUI _ _ _ => True | _ => False end.
Definition is_console_log (e : OutputEvent) : Prop :=
  match e with ConsoleLog _ _ => True | _ => False end.

(** ** Completions of the code editor's language service *)

(** A JavaScript string by its UTF-16 code units, where the order of
    strings matters. *)
Abbreviation CodeUnits := (list N).

(** [a < b] on strings: the first code unit that differs decides, and a
    proper prefix comes first. *)
Fixpoint code_units_lt (a b : CodeUnits) : bool :=
  match a, b with
  | _, [] => false
  | [], _ :: _ => true
  | x :: a, y :: b =>
      if (x <? y)%N then true
      else if (x =? y)%N then code_units_lt a b
      else false
  end.

(** A JavaScript number, as far as negating it and testing it need: its
    sign and its magnitude, or NaN. *)
Inductive Magnitude :=
  | MagZero
  | MagFinite (mantissa : positive) (exponent : Z)
  | MagInfinity.

Inductive JsNumber :=
  | NaN
  | Signed (negative : bool) (magnitude : Magnitude).

Definition js_negate (x : JsNumber) : JsNumber :=
  match x with
  | NaN => NaN
  | Signed negative magnitude => Signed (negb negative) magnitude
  end.

Definition js_truthy (x : JsNumber) : bool :=
  match x with
  | NaN | Signed _ MagZero => false
  | Signed _ _ => true
  end.

Definition js_zero : JsNumber := Signed false MagZero.

Record CompletionEntry := {
  entry_name : string;
  entry_kind : string;
  entry_sortText : CodeUnits;
}.

Record TextSpan := {
  span_start : Z;
  span_length : Z;
}.

Record CompletionInfo := {
  info_entries : list CompletionEntry;
  optionalReplacementSpan : option TextSpan;
}.

(** A [Completion] of the editor. *)
Record EditorCompletion := {
  label : string;
  boost : JsNumber;
}.

Record CompletionResult := {
  result_from : Z;
  result_options : list EditorCompletion;
}.

(** [[ts.ScriptElementKind.warning]], the kind whose value is the string
    ['warning']. *)
Definition TS_COMPLETE_BLOCKLIST : list string := ["warning"].

(** ['15'] *)
Definition sort_text_limit : CodeUnits := [49%N; 53%N].

(** [completionInfo.optionalReplacementSpan?.length] as a condition. *)
Definition has_replacement (info : CompletionInfo) : bool :=
  match optionalReplacementSpan info with
  | Some span => negb (span_length span =? 0)%Z
  | None => false
  end.

Section Completions.

(** [Number(string)], the conversion of the language. *)
Variable Number : CodeUnits -> JsNumber.

(** [env.languageService.getCompletionsAtPosition(FILE_NAME, tsPos, {}, {})],
    [None] when it has nothing. *)
Variable getCompletionsAtPosition : Z -> option CompletionInfo.

(** [cmPosToTs(pos, fnPrefix(returnTypeForMode(mode)))] *)
Variable cmPosToTs : Z -> Z.

Definition completion_filter (info : CompletionInfo) (entry : CompletionEntry) : bool :=
  negb (bool_decide (entry_kind entry ∈ TS_COMPLETE_BLOCKLIST)) &&
  (code_units_lt (entry_sortText entry) sort_text_limit || has_replacement info).

Definition to_completion (entry : CompletionEntry) : EditorCompletion :=
  let negated := js_negate (Number (entry_sortText entry)) in
  {| label := entry_name entry;
     boost := if js_truthy negated then negated else js_zero |}.

(** [getCompletionsAtPos], once the types it needs are loaded. *)
Definition getCompletionsAtPos (pos : Z) : option CompletionResult :=
  match getCompletionsAtPosition (cmPosToTs pos) with
  | None => None
  | Some completionInfo =>
      Some {| result_from := pos;
              result_options :=
                to_completion <$>
                  filter (fun entry => completion_filter completionInfo entry = true)
                    (info_entries completionInfo) |}
  end.

End Completions.

(** The sort texts below ['15']: the empty one, those whose first code
    unit is below ['1'], and those that start with ['1'] and stop there
    or go on with a code unit below ['5']. *)
Definition sorts_before_limit (s : CodeUnits) : Prop :=
  match s with
  | [] => True
  | x :: rest =>
      (x < 49)%N ∨
      (x = 49%N ∧ match rest with [] => True | y :: _ => (y < 53)%N end)
  end.

#[export] Instance sorts_before_limit_dec (s : CodeUnits) : Decision (sorts_before_limit s).
Proof. destruct s as [| x [| y rest]]; simpl; apply _. Defined.

(** The completion comes with a span to replace, and the span is not
    empty. *)
Definition replaces_text (info : CompletionInfo) : Prop :=
  match optionalReplacementSpan info with
  | Some span => span_length span ≠ 0%Z
  | None => False
  end.

#[export] Instance replaces_text_dec (info : CompletionInfo) : Decision (replaces_text info).
Proof. unfold replaces_text. destruct (optionalReplacementSpan info); apply _. Defined.

(** The entries [getCompletionsAtPos] offers. *)
Definition offered (info : CompletionInfo) (entry : CompletionEntry) : Prop :=
  entry_kind entry ≠ "warning" ∧
  (sorts_before_limit (entry_sortText entry) ∨ replaces_text info).

#[export] Instance offered_dec (info : CompletionInfo) (entry : CompletionEntry) :
  Decision (offered info entry).
Proof. unfold offered. apply _. Defined.

(** ** Stand-ins for the collaborators *)


Definition utc_toString (time : option Z) : string :=
  match time with
  | Some _ => "Thu Jan 01 1970 00:00:00 GMT+0000 (Coordinated Universal Time)"
  | None => "Invalid Date"
  end.

(** A UI that takes every message, and one whose connection is gone. *)
Definition ui_ok (type source : string) (messages : list UiValue) : Completion unit :=
  Return tt.
Definition ui_down (type source : string) (messages : list UiValue) : Completion unit :=
  Throw (ApplicationError "push connection closed" None).

(** A conversion that knows the sort text ['11'] and nothing else. *)
Definition eleven_Number (s : CodeUnits) : JsNumber :=
  match s with
  | [49%N; 49%N] => Signed false (MagFinite 11 0)
  | _ => NaN
  end.

(** A language service with a local, a global, and a warning to offer. *)
Definition three_entries (tsPos : Z) : option CompletionInfo :=
  Some {| info_entries :=
            [{| entry_name := "items"; entry_kind := "const"; entry_sortText := [49%N; 49%N] |};
             {| entry_name := "Array"; entry_kind := "var"; entry_sortText := [49%N; 53%N] |};
             {| entry_name := "itms"; entry_kind := "warning"; entry_sortText := [49%N; 49%N] |}];
          optionalReplacementSpan := None |}.

(** * Properties *)

(** ** Data addressing *)

Lemma js_index_nat {A : Type} (arr : list A) (i : Z) :
  (0 ≤ i)%Z -> js_index arr i = arr !! Z.to_nat i.
Proof. intros Hi. unfold js_index. by rewrite decide_True. Qed.

Lemma js_index_length {A : Type} (arr : list A) :
  js_index arr (Z.of_nat (length arr)) = None.
Proof.
  rewrite js_index_nat by lia. rewrite Nat2Z.id. by apply lookup_ge_None_2.
Qed.

Lemma js_index_negative {A : Type} (arr : list A) (i : Z) :
  (i < 0)%Z -> js_index arr i = None.
Proof. intros Hi. unfold js_index. rewrite decide_False; [done | lia]. Qed.

(** C2: on a connected channel, an index that addresses one of its slots
    gets exactly the batch of that slot, and the unset-value error when
    the slot is [null]. *)
Theorem getInputData_valid_slot (ctx : ExecutionContext) (inputName : string)
    (slots : list (option (list INodeExecutionData))) (inputIndex : Z)
    (slot : option (list INodeExecutionData)) :
  inputData ctx !! inputName = Some slots ->
  (0 ≤ inputIndex)%Z ->
  slots !! Z.to_nat inputIndex = Some slot ->
  getInputData ctx inputIndex inputName =
    match slot with
    | Some items => Return (Batch items)
    | None => Throw (input_error "Value of input was not set" inputIndex inputName)
    end.
Proof.
  intros Hchannel Hpos Hslot. unfold getInputData. rewrite Hchannel.
  pose proof (lookup_lt_Some _ _ _ Hslot) as Hlt.
  destruct (Z.ltb_spec (Z.of_nat (length slots)) inputIndex) as [Hbad | _]; [lia |].
  rewrite js_index_nat by done. rewrite Hslot. by destruct slot.
Qed.

Lemma getInputData_valid_slot_witness :
  getInputData merge_context 0 "main" = Return (Batch [plain_item "a"; plain_item "b"]) ∧
  getInputData merge_context 1 "main" =
    Throw (input_error "Value of input was not set" 1 "main").
Proof.
  split.
  - apply (getInputData_valid_slot merge_context "main"
             [Some [plain_item "a"; plain_item "b"]; None] 0
             (Some [plain_item "a"; plain_item "b"]));
      [vm_compute; reflexivity | lia | reflexivity].
  - apply (getInputData_valid_slot merge_context "main"
             [Some [plain_item "a"; plain_item "b"]; None] 1 None);
      [vm_compute; reflexivity | lia | reflexivity].
Defined.

(** The guard of [getInputData] rejects the indices past the length, with
    the index and the channel in the error. *)
Lemma getInputData_index_past_length (ctx : ExecutionContext) (inputName : string)
    (slots : list (option (list INodeExecutionData))) (inputIndex : Z) :
  inputData ctx !! inputName = Some slots ->
  (Z.of_nat (length slots) < inputIndex)%Z ->
  getInputData ctx inputIndex inputName =
    Throw (input_error "Could not get input with given index" inputIndex inputName).
Proof.
  intros Hchannel Hlt. unfold getInputData. rewrite Hchannel.
  by destruct (Z.ltb_spec (Z.of_nat (length slots)) inputIndex) as [_ | Hge]; [| lia].
Qed.

(** The index equal to the length passes the guard: the array access
    gives [undefined], which is not [null], and [undefined] is returned. *)
Lemma getInputData_index_at_length (ctx : ExecutionContext) (inputName : string)
    (slots : list (option (list INodeExecutionData))) :
  inputData ctx !! inputName = Some slots ->
  getInputData ctx (Z.of_nat (length slots)) inputName = Return InputUndefined.
Proof.
  intros Hchannel. unfold getInputData. rewrite Hchannel.
  rewrite Z.ltb_irrefl. by rewrite js_index_length.
Qed.

(** No index is rejected below zero either. *)
Lemma getInputData_negative_index (ctx : ExecutionContext) (inputName : string)
    (slots : list (option (list INodeExecutionData))) (inputIndex : Z) :
  inputData ctx !! inputName = Some slots ->
  (inputIndex < 0)%Z ->
  getInputData ctx inputIndex inputName = Return InputUndefined.
Proof.
  intros Hchannel Hneg. unfold getInputData. rewrite Hchannel.
  destruct (Z.ltb_spec (Z.of_nat (length slots)) inputIndex) as [Hbad | _]; [lia |].
  by rewrite js_index_negative.
Qed.

(** C3: with two batches recorded on [main], asking for index 2 (the
    batch count) does not fail: the call returns [undefined]. *)
Theorem getInputData_batch_count_not_rejected :
  inputData merge_context !! "main" = Some [Some [plain_item "a"; plain_item "b"]; None] ∧
  getInputData merge_context 2 "main" = Return InputUndefined.
Proof. split; vm_compute; reflexivity. Qed.

(** C4: a channel that is not connected yields the empty sequence at
    every index, and no error. *)
Theorem getInputData_unconnected (ctx : ExecutionContext) (inputName : string)
    (inputIndex : Z) :
  inputData ctx !! inputName = None ->
  getInputData ctx inputIndex inputName = Return (Batch []).
Proof. intros Hchannel. unfold getInputData. by rewrite Hchannel. Qed.

Lemma getInputData_unconnected_witness :
  getInputData merge_context 0 "extra" = Return (Batch []).
Proof.
  apply (getInputData_unconnected merge_context "extra" 0). vm_compute. reflexivity.
Defined.

(** C8: without provenance ([source] is [null]) the call fails with the
    source-data-missing error whatever is asked for; with provenance, the
    entry recorded for an existing slot of a recorded channel is returned
    as it is. *)
Theorem getInputSourceData_spec (ctx : ExecutionContext) (inputIndex : Z)
    (inputName : string) :
  (source (executeData ctx) = None ->
   getInputSourceData ctx inputIndex inputName =
     Throw (ApplicationError "Source data is missing" None)) ∧
  (forall (src : ITaskDataConnectionsSource) (slots : list (option ISourceData))
          (slot : option ISourceData),
     source (executeData ctx) = Some src ->
     src !! inputName = Some slots ->
     (0 ≤ inputIndex)%Z ->
     slots !! Z.to_nat inputIndex = Some slot ->
     getInputSourceData ctx inputIndex inputName =
       Return (match slot with Some entry => Source entry | None => SourceNull end)).
Proof.
  split.
  - intros Hnull. unfold getInputSourceData. by rewrite Hnull.
  - intros src slots slot Hsrc Hchannel Hpos Hslot.
    unfold getInputSourceData. rewrite Hsrc, Hchannel.
    rewrite js_index_nat by done. rewrite Hslot. by destruct slot.
Qed.

(** With provenance set but nothing recorded for the channel, the access
    [source[inputName][inputIndex]] itself fails. *)
Lemma getInputSourceData_unrecorded_channel (ctx : ExecutionContext) (inputIndex : Z)
    (inputName : string) (src : ITaskDataConnectionsSource) :
  source (executeData ctx) = Some src ->
  src !! inputName = None ->
  getInputSourceData ctx inputIndex inputName =
    Throw (TypeError "Cannot read properties of undefined").
Proof. intros Hsrc Hchannel. unfold getInputSourceData. by rewrite Hsrc, Hchannel. Qed.

Lemma getInputSourceData_spec_witness :
  getInputSourceData bare_context 0 "main" =
    Throw (ApplicationError "Source data is missing" None) ∧
  getInputSourceData merge_context 0 "main" = Return (Source (upstream "Fetch")).
Proof.
  split.
  - apply (proj1 (getInputSourceData_spec bare_context 0 "main")). reflexivity.
  - apply (proj2 (getInputSourceData_spec merge_context 0 "main")
             merge_sources [Some (upstream "Fetch"); None] (Some (upstream "Fetch")));
      [reflexivity | vm_compute; reflexivity | lia | reflexivity].
Defined.

(** ** Recording input and output data *)

Lemma run_microtasks_enqueue (r : CatchReaction) (w : World) :
  run_microtasks (enqueue r w) = run_reaction r (run_microtasks w).
Proof. unfold run_microtasks, enqueue. simpl. by rewrite foldl_app. Qed.

Lemma events_run_reaction (r : CatchReaction) (w : World) :
  events (run_reaction r w) =
    events w ++ warnings_of (reaction_direction r) (reaction_nodeName r) (reaction_promise r).
Proof.
  unfold run_reaction, warnings_of. destruct (reaction_promise r); simpl; [|done].
  by rewrite app_nil_r.
Qed.

Lemma events_run_microtasks_record (r : IRunExecutionData) (w : World) :
  events (run_microtasks (set_runExecutionData r w)) = events (run_microtasks w).
Proof.
  unfold run_microtasks, set_runExecutionData. simpl.
  generalize (events w). induction (microtasks w) as [| x l IH] using rev_ind; intros ev.
  - done.
  - rewrite !foldl_app. simpl. rewrite !events_run_reaction. by rewrite IH.
Qed.

Section AddDataProperties.

Variable helper : AddExecutionDataArgs -> IRunExecutionData -> Settled unit * IRunExecutionData.

Lemma events_call_helper (args : AddExecutionDataArgs) (w : World) :
  events (call_addExecutionDataFunctions helper args w) = events w.
Proof.
  unfold call_addExecutionDataFunctions. by destruct (helper args (runExecutionData w)).
Qed.

Lemma events_drained_call_helper (args : AddExecutionDataArgs) (w : World) :
  events (run_microtasks (call_addExecutionDataFunctions helper args w)) =
    events (run_microtasks w) ++
      warnings_of (arg_type args) (arg_nodeName args) (helper args (runExecutionData w)).1.
Proof.
  unfold call_addExecutionDataFunctions.
  destruct (helper args (runExecutionData w)) as [promise r]. simpl.
  rewrite run_microtasks_enqueue, events_run_reaction. simpl.
  by rewrite events_run_microtasks_record.
Qed.

End AddDataProperties.

(** [addInputData] spelled out: the index is read off the record first,
    then the helper is called with it. *)
Lemma addInputData_unfold
    (helper : AddExecutionDataArgs -> IRunExecutionData -> Settled unit * IRunExecutionData)
    (ctx : ExecutionContext) (connectionType : string) (data : ExecutionDataOrError)
    (w : World) :
  addInputData helper ctx connectionType data w =
    (Return {| index := Z.of_nat (recorded_attempts (node_name (node ctx)) (runExecutionData w)) |},
     call_addExecutionDataFunctions helper
       (add_data_args DirInput ctx data connectionType
          (Z.of_nat (recorded_attempts (node_name (node ctx)) (runExecutionData w)))) w).
Proof.
  unfold addInputData, recorded_attempts. simpl.
  by destruct (runData (resultData (runExecutionData w)) !! node_name (node ctx)).
Qed.

(** C5: [addInputData] returns the number of attempts the record holds
    for this node when it is called (zero without an entry), whatever
    [addExecutionDataFunctions] then does to the record, and that number
    is also the attempt index handed to [addExecutionDataFunctions]. *)
Theorem addInputData_index
    (helper : AddExecutionDataArgs -> IRunExecutionData -> Settled unit * IRunExecutionData)
    (ctx : ExecutionContext) (connectionType : string) (data : ExecutionDataOrError)
    (w : World) :
  let count :=
    match runData (resultData (runExecutionData w)) !! node_name (node ctx) with
    | Some runs => Z.of_nat (length runs)
    | None => 0%Z
    end in
  let result := addInputData helper ctx connectionType data w in
  result.1 = Return {| index := count |} ∧
  exists args,
    result.2 = call_addExecutionDataFunctions helper args w ∧
    arg_type args = DirInput ∧
    arg_nodeName args = node_name (node ctx) ∧
    arg_currentNodeRunIndex args = count.
Proof.
  intros count result. subst result. rewrite addInputData_unfold. simpl.
  assert (Z.of_nat (recorded_attempts (node_name (node ctx)) (runExecutionData w)) = count)
    as ->.
  { subst count. unfold recorded_attempts.
    by destruct (runData (resultData (runExecutionData w)) !! node_name (node ctx)). }
  split; [done |]. by eexists.
Qed.

(** Two calls in a row, with a helper that records an attempt each time:
    the indices are 0 and then 1. *)
Example addInputData_twice :
  let first := addInputData recording_helper merge_context "ai_tool" (ExecutionData []) fresh_world in
  let second := addInputData recording_helper merge_context "ai_tool" (ExecutionData []) first.2 in
  first.1 = Return {| index := 0 |} ∧ second.1 = Return {| index := 1 |}.
Proof. split; vm_compute; reflexivity. Qed.

(** C6: both methods return normally whatever [addExecutionDataFunctions]
    does; nothing is logged before they return, and once the pending
    callbacks have run, a rejected promise has left exactly one warning
    that carries its message, a fulfilled one nothing. *)
Theorem add_data_failure_logged_not_raised
    (helper : AddExecutionDataArgs -> IRunExecutionData -> Settled unit * IRunExecutionData)
    (ctx : ExecutionContext) (connectionType : string) (currentNodeRunIndex : Z)
    (data : ExecutionDataOrError) (w : World) :
  let name := node_name (node ctx) in
  let count := Z.of_nat (recorded_attempts name (runExecutionData w)) in
  let input := addInputData helper ctx connectionType data w in
  let output := addOutputData helper ctx connectionType currentNodeRunIndex data w in
  input.1 = Return {| index := count |} ∧
  output.1 = Return tt ∧
  events input.2 = events w ∧
  events output.2 = events w ∧
  events (run_microtasks input.2) =
    events (run_microtasks w) ++
      warnings_of DirInput name
        (helper (add_data_args DirInput ctx data connectionType count) (runExecutionData w)).1 ∧
  events (run_microtasks output.2) =
    events (run_microtasks w) ++
      warnings_of DirOutput name
        (helper (add_data_args DirOutput ctx data connectionType currentNodeRunIndex)
           (runExecutionData w)).1.
Proof.
  intros name count input output. subst input output.
  rewrite addInputData_unfold. fold name count. unfold addOutputData. simpl.
  rewrite !events_call_helper, !events_drained_call_helper.
  by repeat split.
Qed.

(** On the [main] connection the stand-in helper rejects: the node gets
    its index all the same and the logger one warning. *)
Example addInputData_rejected :
  let result := addInputData recording_helper merge_context "main" (ExecutionData []) fresh_world in
  result.1 = Return {| index := 0 |} ∧
  events result.2 = [] ∧
  events (run_microtasks result.2) =
    [LoggerWarn (logging_problem DirInput "Merge"
       "Setting the type is not supported for the main connection")].
Proof. repeat split; vm_compute; reflexivity. Qed.

(** ** Waiting *)

(** C7: [putExecutionToWait t] writes [t] into [waitTill] and nothing else
    in the run record; the only other effect is the call of the engine's
    status setter, when one is installed, with the waiting status. *)
Theorem putExecutionToWait_frame (ctx : ExecutionContext) (t : Z) (w : World) :
  let result := putExecutionToWait ctx t w in
  result.1 = Fulfilled tt ∧
  waitTill (runExecutionData result.2) = Some t ∧
  resultData (runExecutionData result.2) = resultData (runExecutionData w) ∧
  otherProperties (runExecutionData result.2) = otherProperties (runExecutionData w) ∧
  microtasks result.2 = microtasks w ∧
  events result.2 =
    events w ++
      (if has_setExecutionStatus (additionalData ctx)
       then [SetExecutionStatus StatusWaiting] else []).
Proof.
  unfold putExecutionToWait. simpl.
  destruct (has_setExecutionStatus (additionalData ctx)); simpl;
    repeat split; by rewrite ?app_nil_r.
Qed.

Example putExecutionToWait_merge :
  (putExecutionToWait merge_context 1767225600000 fresh_world).2 =
    {| runExecutionData :=
         {| resultData := resultData empty_record;
            waitTill := Some 1767225600000%Z;
            otherProperties := otherProperties empty_record |};
       events := [SetExecutionStatus StatusWaiting];
       microtasks := [] |}.
Proof. reflexivity. Qed.

(** ** Cancellation *)

Lemma invoked_fns_app h1 h2 : invoked_fns (h1 ++ h2) = invoked_fns h1 ++ invoked_fns h2.
Proof. apply omap_app. Qed.
Lemma invoked_tags_app h1 h2 : invoked_tags (h1 ++ h2) = invoked_tags h1 ++ invoked_tags h2.
Proof. apply omap_app. Qed.
Lemma added_tags_app h1 h2 : added_tags (h1 ++ h2) = added_tags h1 ++ added_tags h2.
Proof. apply omap_app. Qed.

Lemma count_nat_app t l1 l2 : count_nat t (l1 ++ l2) = count_nat t l1 + count_nat t l2.
Proof. unfold count_nat. by rewrite filter_app, length_app. Qed.

Lemma count_nat_perm t l1 l2 : l1 ≡ₚ l2 -> count_nat t l1 = count_nat t l2.
Proof. intros H. unfold count_nat. by rewrite H. Qed.

Lemma removal_first_snoc h e :
  removal_first h ->
  (forall fn tag, e = Invoked fn tag -> last h = Some (Removed fn)) ->
  removal_first (h ++ [e]).
Proof.
  intros Hh He pre fn tag post Heq.
  destruct post as [| x post _] using rev_ind.
  - apply (app_inj_tail h pre e (Invoked fn tag)) in Heq as [-> ->]. by eapply He.
  - rewrite app_comm_cons, app_assoc in Heq.
    apply app_inj_tail in Heq as [-> _]. by eapply Hh.
Qed.

Lemma signal_inv_new : signal_inv new_signal.
Proof.
  split; simpl.
  - constructor.
  - intros fn H. by apply elem_of_nil in H.
  - intros l H. by apply elem_of_nil in H.
  - constructor.
  - intros fn H. by apply elem_of_nil in H.
  - done.
  - intros pre fn tag post H. by destruct pre.
Qed.

Lemma fresh_closure_unregistered s :
  signal_inv s -> closures s ∉ registered_fns s.
Proof. intros Hs Hin. apply (inv_bound s Hs) in Hin. lia. Qed.

Lemma onExecutionCancellation_signal ctx handler s :
  signal_inv s ->
  abortSignal ctx = Some TheAbortSignal ->
  onExecutionCancellation ctx handler s =
    {| listeners := listeners s ++
         [{| listener_fn := closures s; listener_this := ctx; listener_handler := handler |}];
       closures := S (closures s);
       history := history s ++ [Added (closures s) (handler_tag handler)] |}.
Proof.
  intros Hs Hsig. unfold onExecutionCancellation, addEventListener. rewrite Hsig. simpl.
  rewrite decide_False; [done |].
  intros Hin. by apply (fresh_closure_unregistered s Hs).
Qed.

Lemma onExecutionCancellation_inv ctx handler s :
  signal_inv s -> signal_inv (onExecutionCancellation ctx handler s).
Proof.
  intros Hs. destruct (abortSignal ctx) as [[] |] eqn:Hsig.
  2: { unfold onExecutionCancellation. by rewrite Hsig. }
  rewrite onExecutionCancellation_signal by done.
  destruct Hs as [Hnodup Hbound Hsignal Honce Hgone Hcount Horder].
  split; simpl.
  - unfold registered_fns. simpl. rewrite fmap_app. simpl.
    apply NoDup_app. split_and!; [done | | apply NoDup_singleton].
    intros fn Hin ->%list_elem_of_singleton. apply Hbound in Hin. lia.
  - intros fn. unfold registered_fns. simpl. rewrite fmap_app, elem_of_app. simpl.
    intros [Hin | ->%list_elem_of_singleton]; [apply Hbound in Hin |]; lia.
  - intros l [Hin | ->%list_elem_of_singleton]%elem_of_app; [by apply Hsignal | done].
  - by rewrite invoked_fns_app, app_nil_r.
  - intros fn. rewrite invoked_fns_app, app_nil_r. intros Hin.
    destruct (Hgone fn Hin) as [Hlt Hnot]. split; [lia |].
    unfold registered_fns. simpl. rewrite fmap_app, elem_of_app. simpl.
    intros [? | ->%list_elem_of_singleton]; [done | lia].
  - intros t. rewrite invoked_tags_app, added_tags_app, app_nil_r.
    unfold listener_tags. simpl. rewrite fmap_app, !count_nat_app. simpl.
    rewrite <- Hcount. unfold listener_tags. lia.
  - apply removal_first_snoc; [done | done].
Qed.

Lemma registrations_inv this handlers s :
  signal_inv s ->
  signal_inv (foldl (fun s h => onExecutionCancellation this h s) s handlers).
Proof.
  revert s. induction handlers as [| h handlers IH]; intros s Hs; simpl; [done |].
  apply IH. by apply onExecutionCancellation_inv.
Qed.

Lemma grows_refl s : grows s s.
Proof. split_and!; [lia | done | by left]. Qed.

Lemma grows_trans s1 s2 s3 : grows s1 s2 -> grows s2 s3 -> grows s1 s3.
Proof.
  intros (Hc1 & Hl1 & Hf1) (Hc2 & Hl2 & Hf2). split_and!; [lia | by auto |].
  intros fn Hin. destruct (Hf2 fn Hin) as [Hin2 | Hge]; [| right; lia].
  destruct (Hf1 fn Hin2); [by left | right; lia].
Qed.

Lemma grows_record e s : grows s (record e s).
Proof. split_and!; simpl; [lia | done | by left]. Qed.

Lemma onExecutionCancellation_grows ctx handler s :
  signal_inv s -> grows s (onExecutionCancellation ctx handler s).
Proof.
  intros Hs. destruct (abortSignal ctx) as [[] |] eqn:Hsig.
  2: { unfold onExecutionCancellation. rewrite Hsig. apply grows_refl. }
  rewrite onExecutionCancellation_signal by done.
  split_and!; simpl.
  - lia.
  - intros l Hin. apply elem_of_app. by left.
  - intros fn. unfold registered_fns. simpl. rewrite fmap_app, elem_of_app. simpl.
    intros [Hin | ->%list_elem_of_singleton]; [by left | right; lia].
Qed.

Lemma registrations_grows this handlers s :
  signal_inv s ->
  grows s (foldl (fun s h => onExecutionCancellation this h s) s handlers).
Proof.
  revert s. induction handlers as [| h handlers IH]; intros s Hs; simpl.
  - apply grows_refl.
  - eapply grows_trans; [by apply onExecutionCancellation_grows |].
    apply IH. by apply onExecutionCancellation_inv.
Qed.

Lemma run_listener_signal l s :
  abortSignal (listener_this l) = Some TheAbortSignal ->
  run_listener l s =
    let s2 := foldl (fun s h => onExecutionCancellation (listener_this l) h s)
                (before_handler l s) (handler_registers (listener_handler l)) in
    if handler_throws (listener_handler l)
    then record (Reported (handler_tag (listener_handler l))) s2 else s2.
Proof. intros Hsig. unfold run_listener, call_handler. by rewrite Hsig. Qed.

Lemma filter_all {A : Type} (P : A -> Prop) `{forall x, Decision (P x)} (l : list A) :
  (forall x, x ∈ l -> P x) -> filter P l = l.
Proof.
  induction l as [| x l IH]; intros Hall; [done |].
  rewrite filter_cons_True by (apply Hall; left).
  f_equal. apply IH. intros y Hy. apply Hall. by right.
Qed.

Lemma remove_one (ls : list Listener) (l : Listener) :
  NoDup (listener_fn <$> ls) -> l ∈ ls ->
  ls ≡ₚ l :: filter (fun x => listener_fn x ≠ listener_fn l) ls.
Proof.
  induction ls as [| x ls IH]; intros Hnodup Hin; [by apply elem_of_nil in Hin |].
  rewrite fmap_cons in Hnodup. apply NoDup_cons in Hnodup as [Hx Hnodup].
  apply elem_of_cons in Hin as [-> | Hin].
  - rewrite filter_cons_False by naive_solver.
    rewrite filter_all; [done |].
    intros y Hy Heq. apply Hx. rewrite <- Heq. by apply list_elem_of_fmap_2.
  - assert (listener_fn x ≠ listener_fn l) as Hne.
    { intros Heq. apply Hx. rewrite Heq. by apply list_elem_of_fmap_2. }
    rewrite filter_cons_True by done.
    rewrite (IH Hnodup Hin) at 1. apply Permutation_swap.
Qed.

Lemma before_handler_inv l s :
  signal_inv s -> l ∈ listeners s -> signal_inv (before_handler l s).
Proof.
  intros [Hnodup Hbound Hsignal Honce Hgone Hcount Horder] Hl.
  assert (listener_fn l ∈ registered_fns s) as Hreg by by apply list_elem_of_fmap_2.
  split; unfold before_handler, registered_fns, listener_tags; simpl.
  - apply (sublist_NoDup _ (registered_fns s)); [done |].
    apply fmap_sublist, sublist_filter.
  - intros fn (x & -> & Hx%list_elem_of_filter)%list_elem_of_fmap.
    apply Hbound. apply list_elem_of_fmap_2. tauto.
  - intros x Hx%list_elem_of_filter. apply Hsignal. tauto.
  - rewrite !invoked_fns_app. simpl. rewrite app_nil_r.
    apply NoDup_app. split_and!; [done | | apply NoDup_singleton].
    intros fn Hin ->%list_elem_of_singleton. by destruct (Hgone _ Hin).
  - intros fn. rewrite !invoked_fns_app. simpl. rewrite app_nil_r.
    intros [Hin | ->%list_elem_of_singleton]%elem_of_app.
    + destruct (Hgone fn Hin) as [Hlt Hnot]. split; [done |].
      intros (x & -> & Hx%list_elem_of_filter)%list_elem_of_fmap.
      apply Hnot. apply list_elem_of_fmap_2. tauto.
    + split; [by apply Hbound |].
      intros (x & Heq & Hx%list_elem_of_filter)%list_elem_of_fmap.
      destruct Hx as [Hne _]. by apply Hne.
  - intros t. rewrite !invoked_tags_app, !added_tags_app. simpl. rewrite !app_nil_r.
    rewrite <- Hcount, count_nat_app.
    assert (count_nat t (listener_tags s) =
            count_nat t [handler_tag (listener_handler l)] +
            count_nat t ((fun x => handler_tag (listener_handler x)) <$>
               filter (fun x => listener_fn x ≠ listener_fn l) (listeners s))) as ->.
    { rewrite <- count_nat_app. apply count_nat_perm. unfold listener_tags.
      rewrite (remove_one _ l Hnodup Hl) at 1. by rewrite fmap_cons. }
    lia.
  - apply removal_first_snoc.
    + apply removal_first_snoc; [done | done].
    + intros fn tag [= <- <-]. by rewrite last_snoc.
Qed.

Lemma record_reported_inv tag s : signal_inv s -> signal_inv (record (Reported tag) s).
Proof.
  intros [Hnodup Hbound Hsignal Honce Hgone Hcount Horder].
  split; simpl; try done.
  - by rewrite invoked_fns_app, app_nil_r.
  - intros fn. rewrite invoked_fns_app, app_nil_r. apply Hgone.
  - intros t. rewrite invoked_tags_app, added_tags_app, !app_nil_r. apply Hcount.
  - by apply removal_first_snoc.
Qed.

Lemma run_listener_inv l s :
  signal_inv s -> l ∈ listeners s -> signal_inv (run_listener l s).
Proof.
  intros Hs Hl. rewrite run_listener_signal by by apply (inv_signal s Hs).
  simpl. pose proof (before_handler_inv l s Hs Hl) as Hs1.
  pose proof (registrations_inv (listener_this l) (handler_registers (listener_handler l)) _ Hs1).
  destruct (handler_throws (listener_handler l)); [by apply record_reported_inv | done].
Qed.

Lemma run_listener_grows l s :
  signal_inv s -> l ∈ listeners s -> grows (before_handler l s) (run_listener l s).
Proof.
  intros Hs Hl. rewrite run_listener_signal by by apply (inv_signal s Hs).
  simpl. pose proof (before_handler_inv l s Hs Hl) as Hs1.
  pose proof (registrations_grows (listener_this l)
                (handler_registers (listener_handler l)) _ Hs1) as Hgrows.
  destruct (handler_throws (listener_handler l)); [| done].
  eapply grows_trans; [exact Hgrows | apply grows_record].
Qed.

Lemma grows_unregistered s s' fn :
  grows s s' -> fn < closures s -> fn ∉ registered_fns s -> fn ∉ registered_fns s'.
Proof. intros (_ & _ & Hf) Hlt Hnot Hin. destruct (Hf fn Hin); [done | lia]. Qed.

Lemma run_listener_pending l s rest :
  signal_inv s -> l ∈ listeners s -> pending rest s -> pending rest (run_listener l s).
Proof.
  intros Hs Hl Hrest x Hx. destruct (Hrest x Hx) as [Hlt Hcase].
  pose proof (run_listener_grows l s Hs Hl) as Hgrows.
  assert (closures (before_handler l s) = closures s) as Hclosures by done.
  split; [destruct Hgrows as [Hle _]; lia |].
  destruct (decide (listener_fn x = listener_fn l)) as [Heq | Hne].
  - right. apply (grows_unregistered _ _ _ Hgrows); [lia |].
    intros (y & Hy & Hin%list_elem_of_filter)%list_elem_of_fmap.
    destruct Hin as [Hkept _]. apply Hkept. congruence.
  - destruct Hcase as [Hin | Hnot].
    + left. destruct Hgrows as (_ & Hkeep & _). apply Hkeep.
      unfold before_handler. simpl. by apply list_elem_of_filter.
    + right. apply (grows_unregistered _ _ _ Hgrows); [lia |].
      intros (y & Hy & Hin%list_elem_of_filter)%list_elem_of_fmap.
      apply Hnot. rewrite Hy. apply list_elem_of_fmap_2. tauto.
Qed.

Lemma dispatch_loop_inv snapshot s :
  signal_inv s -> pending snapshot s ->
  signal_inv
    (foldl (fun s l => if decide (listener_fn l ∈ registered_fns s) then run_listener l s else s)
       s snapshot).
Proof.
  revert s. induction snapshot as [| l snapshot IH]; intros s Hs Hpending; simpl; [done |].
  assert (pending snapshot s) as Htail.
  { intros x Hx. apply Hpending. by right. }
  destruct (decide (listener_fn l ∈ registered_fns s)) as [Hreg | Hnot].
  - destruct (Hpending l) as [_ [Hin | Hgone]]; [by left | | done].
    apply IH; [by apply run_listener_inv | by apply run_listener_pending].
  - by apply IH.
Qed.

Lemma dispatch_abort_inv s : signal_inv s -> signal_inv (dispatch_abort s).
Proof.
  intros Hs. apply dispatch_loop_inv; [done |].
  intros l Hl. split; [| by left].
  apply (inv_bound s Hs). by apply list_elem_of_fmap_2.
Qed.

Lemma run_signal_inv ops s : signal_inv s -> signal_inv (run_signal ops s).
Proof.
  revert s. induction ops as [| op ops IH]; intros s Hs; simpl; [done |].
  apply IH. destruct op; simpl.
  - by apply onExecutionCancellation_inv.
  - by apply dispatch_abort_inv.
Qed.

(** C9: in whatever order handlers are registered and the signal fires,
    no closure built by [onExecutionCancellation] calls its handler twice;
    a handler is called at most as often as it was registered; every call
    of a handler comes right after the removal of its closure from the
    signal; and a closure whose handler was called is registered no
    more, so a later firing finds nothing to call again. *)
Theorem handler_invoked_at_most_once (ops : list SignalOp) :
  let s := run_signal ops new_signal in
  NoDup (invoked_fns (history s)) ∧
  (forall tag,
     count_nat tag (invoked_tags (history s)) ≤ count_nat tag (added_tags (history s))) ∧
  removal_first (history s) ∧
  (forall fn, fn ∈ invoked_fns (history s) -> fn ∉ registered_fns s).
Proof.
  intros s. pose proof (run_signal_inv ops new_signal signal_inv_new) as Hs.
  fold s in Hs. split_and!.
  - apply (inv_once s Hs).
  - intros tag. pose proof (inv_count s Hs tag). lia.
  - apply (inv_order s Hs).
  - intros fn Hfn. by destruct (inv_gone s Hs fn Hfn).
Qed.

(** One handler, and the signal fired three times: one call. *)
Example one_handler_three_firings :
  history (run_signal [Register merge_context (logger 5); Abort; Abort; Abort] new_signal)
    = [Added 0 5; Removed 0; Invoked 0 5].
Proof. vm_compute. reflexivity. Qed.

(** A handler that throws and registers a follow-up: its closure is gone
    all the same, and the follow-up is called by the next firing only. *)
Example restless_handler :
  history (run_signal [Register merge_context (restless 7); Abort] new_signal)
    = [Added 0 7; Removed 0; Invoked 0 7; Added 1 8; Reported 7] ∧
  history (run_signal [Register merge_context (restless 7); Abort; Abort; Abort] new_signal)
    = [Added 0 7; Removed 0; Invoked 0 7; Added 1 8; Reported 7; Removed 1; Invoked 1 8].
Proof. split; vm_compute; reflexivity. Qed.

(** The bound is reached: the same handler registered twice is called
    twice by one firing, once by each of its two closures. *)
Example same_handler_registered_twice :
  history (run_signal [Register merge_context (logger 5); Register merge_context (logger 5);
                       Abort; Abort] new_signal)
    = [Added 0 5; Added 1 5; Removed 0; Invoked 0 5; Removed 1; Invoked 1 5].
Proof. vm_compute. reflexivity. Qed.

(** C10: a context built without an abort signal exposes none, and
    registering a handler through it changes nothing: the signal state is
    the one before, so whatever happens next happens as if the handler had
    never been registered, and nothing calls it. *)
Theorem onExecutionCancellation_without_signal (ctx : ExecutionContext)
    (handler : Handler) (s : AbortSignal) :
  abortSignal ctx = None ->
  getExecutionCancelSignal ctx = None ∧
  onExecutionCancellation ctx handler s = s ∧
  (forall ops, run_signal ops (onExecutionCancellation ctx handler s) = run_signal ops s) ∧
  (forall ops,
     invoked_fns (history (run_signal (Register ctx handler :: ops) new_signal)) =
     invoked_fns (history (run_signal ops new_signal))).
Proof.
  intros Hnone.
  assert (forall s', onExecutionCancellation ctx handler s' = s') as Hsame.
  { intros s'. unfold onExecutionCancellation. by rewrite Hnone. }
  split_and!; [done | done | intros ops; by rewrite Hsame |].
  intros ops. simpl. by rewrite Hsame.
Qed.

Lemma onExecutionCancellation_without_signal_witness :
  getExecutionCancelSignal bare_context = None ∧
  onExecutionCancellation bare_context (logger 5) new_signal = new_signal.
Proof.
  destruct (onExecutionCancellation_without_signal bare_context (logger 5) new_signal)
    as (Hsignal & Hsame & _); [reflexivity |].
  split; [exact Hsignal | exact Hsame].
Defined.

Example no_signal_no_call :
  history (run_signal [Register bare_context (logger 5); Abort; Abort] new_signal) = [].
Proof. vm_compute. reflexivity. Qed.

(** ** Sub-workflow invocation *)

Lemma Dup_bind_fulfilled {A B : Type} (m : Dup A) (f : A -> Dup B) (s s' : BinaryStore) (b : B) :
  (m ≫= f) s = (Fulfilled b, s') ->
  exists a s1, m s = (Fulfilled a, s1) ∧ f a s1 = (Fulfilled b, s').
Proof.
  unfold mbind, Dup_bind. destruct (m s) as [[a | reason] s1]; [eauto | done].
Qed.

Lemma Dup_bind_run {A B : Type} (m : Dup A) (f : A -> Dup B) (s s1 : BinaryStore) (a : A) :
  m s = (Fulfilled a, s1) -> (m ≫= f) s = f a s1.
Proof. intros H. unfold mbind, Dup_bind. by rewrite H. Qed.

Lemma Dup_ret_fulfilled {A : Type} (a b : A) (s s' : BinaryStore) :
  mret (M := Dup) a s = (Fulfilled b, s') -> b = a ∧ s' = s.
Proof. unfold mret, Dup_ret. by intros [= -> ->]. Qed.

Section DupMapM.
Context {A B : Type} (f : A -> Dup B).

Section Relates.
Variable R : BinaryStore -> BinaryStore -> A -> B -> Prop.
Hypothesis R_weaken : forall s0 s1 s2 s3 a b,
  s0 ⊆ s1 -> s2 ⊆ s3 -> R s1 s2 a b -> R s0 s3 a b.
Hypothesis f_relates : forall a s b s',
  f a s = (Fulfilled b, s') -> s ⊆ s' ∧ R s s' a b.

Lemma mapM_relates (l : list A) (s : BinaryStore) (l' : list B) (s' : BinaryStore) :
  mapM f l s = (Fulfilled l', s') -> s ⊆ s' ∧ Forall2 (R s s') l l'.
Proof.
  revert s l' s'. induction l as [| a l IH]; intros s l' s' Hrun.
  - apply Dup_ret_fulfilled in Hrun as [-> ->]. split; [done | constructor].
  - simpl in Hrun.
    apply Dup_bind_fulfilled in Hrun as (b & s1 & Hf & Hrun).
    apply Dup_bind_fulfilled in Hrun as (k & s2 & Hl & Hrun).
    apply Dup_ret_fulfilled in Hrun as [-> ->].
    destruct (f_relates _ _ _ _ Hf) as [Hsub1 HR].
    destruct (IH _ _ _ Hl) as [Hsub2 Hall].
    split; [by etrans |]. constructor.
    + by apply (R_weaken s s s1 s2).
    + eapply Forall2_impl; [exact Hall |].
      intros x y Hxy. by apply (R_weaken s s1 s2 s2).
Qed.
End Relates.

Section Progress.
Variable Q : BinaryStore -> A -> Prop.
Hypothesis Q_weaken : forall s s' a, s ⊆ s' -> Q s a -> Q s' a.
Hypothesis f_grows : forall a s b s', f a s = (Fulfilled b, s') -> s ⊆ s'.
Hypothesis f_progress : forall a s, Q s a -> exists b s', f a s = (Fulfilled b, s').

Lemma mapM_progress (l : list A) (s : BinaryStore) :
  Forall (Q s) l -> exists l' s', mapM f l s = (Fulfilled l', s').
Proof.
  revert s. induction l as [| a l IH]; intros s Hall.
  - by exists [], s.
  - apply Forall_cons in Hall as [Ha Hall].
    destruct (f_progress a s Ha) as (b & s1 & Hf).
    destruct (IH s1) as (k & s2 & Hl).
    { eapply Forall_impl; [exact Hall |]. intros x. apply Q_weaken. by eapply f_grows. }
    exists (b :: k), s2. simpl.
    rewrite (Dup_bind_run _ _ _ _ _ Hf), (Dup_bind_run _ _ _ _ _ Hl). done.
Qed.
End Progress.
End DupMapM.

Lemma fresh_file_unused (store : BinaryStore) (workflowId executionId : option string) :
  store !! (workflowId, executionId, fresh_file store) = None.
Proof.
  destruct (store !! (workflowId, executionId, fresh_file store)) as [bytes |] eqn:Hin; [| done].
  exfalso. apply (is_fresh (used_files store)).
  unfold used_files. apply elem_of_map.
  exists (workflowId, executionId, fresh_file store). split; [done |].
  apply elem_of_dom. by exists bytes.
Qed.

Section Rehoming.
Variables workflowId executionId : option string.

Lemma rehomed_weaken s0 s1 s2 s3 old new :
  s0 ⊆ s1 -> s2 ⊆ s3 ->
  rehomed workflowId executionId s1 s2 old new ->
  rehomed workflowId executionId s0 s3 old new.
Proof.
  intros H01 H23 (Hscope & Hnew & Hsome & Hbytes & Hmime & Hsize).
  split_and!; try done.
  - by eapply lookup_weaken_None.
  - by eapply lookup_weaken_is_Some.
  - intros bytes Hold. eapply lookup_weaken; [| exact H23].
    apply Hbytes. by eapply lookup_weaken.
Qed.

Lemma duplicate_reference_relates ref s ref' s' :
  duplicate_reference workflowId executionId ref s = (Fulfilled ref', s') ->
  s ⊆ s' ∧ rehomed workflowId executionId s s' ref ref'.
Proof.
  unfold duplicate_reference. destruct (s !! id ref) as [bytes |] eqn:Hold; [| done].
  intros [= <- <-]. pose proof (fresh_file_unused s workflowId executionId) as Hfresh.
  split; [by apply insert_subseteq |].
  split_and!; simpl; try done.
  - rewrite lookup_insert_eq. by eexists.
  - intros bytes' Hbytes. rewrite Hold in Hbytes. injection Hbytes as ->.
    by rewrite lookup_insert_eq.
Qed.

Lemma duplicate_reference_progress ref s :
  resolves s ref ->
  exists ref' s', duplicate_reference workflowId executionId ref s = (Fulfilled ref', s').
Proof.
  intros [bytes Hold]. unfold duplicate_reference. rewrite Hold. eauto.
Qed.

Lemma property_rehomed_weaken s0 s1 s2 s3 old new :
  s0 ⊆ s1 -> s2 ⊆ s3 ->
  property_rehomed workflowId executionId s1 s2 old new ->
  property_rehomed workflowId executionId s0 s3 old new.
Proof. intros H01 H23 [Hkey Href]. split; [done | by eapply rehomed_weaken]. Qed.

Lemma duplicate_property_relates p s p' s' :
  duplicate_property workflowId executionId p s = (Fulfilled p', s') ->
  s ⊆ s' ∧ property_rehomed workflowId executionId s s' p p'.
Proof.
  unfold duplicate_property. intros (ref & s1 & Href & Hret)%Dup_bind_fulfilled.
  apply Dup_ret_fulfilled in Hret as [-> ->].
  destruct (duplicate_reference_relates _ _ _ _ Href). by split.
Qed.

Lemma item_rehomed_weaken s0 s1 s2 s3 old new :
  s0 ⊆ s1 -> s2 ⊆ s3 ->
  item_rehomed workflowId executionId s1 s2 old new ->
  item_rehomed workflowId executionId s0 s3 old new.
Proof.
  intros H01 H23 [Hjson Hbinary]. split; [done |].
  destruct Hbinary as [props props' Hprops |]; constructor.
  eapply Forall2_impl; [exact Hprops |].
  intros p p'. by apply property_rehomed_weaken.
Qed.

Lemma item_rehomed_refl s item :
  binary item = None -> item_rehomed workflowId executionId s s item item.
Proof. intros Hnone. split; [done |]. rewrite Hnone. constructor. Qed.

Lemma duplicate_item_relates item s item' s' :
  duplicate_item workflowId executionId item s = (Fulfilled item', s') ->
  s ⊆ s' ∧ item_rehomed workflowId executionId s s' item item'.
Proof.
  unfold duplicate_item. destruct (binary item) as [props |] eqn:Hbinary.
  - intros (props' & s1 & Hprops & Hret)%Dup_bind_fulfilled.
    apply Dup_ret_fulfilled in Hret as [-> ->].
    apply (mapM_relates _ (property_rehomed workflowId executionId)) in Hprops
      as [Hsub Hall];
      [| apply property_rehomed_weaken | apply duplicate_property_relates].
    split; [done |]. split; [done |]. rewrite Hbinary. by constructor.
  - intros [-> ->]%Dup_ret_fulfilled. split; [done | by apply item_rehomed_refl].
Qed.

Lemma slot_rehomed_weaken s0 s1 s2 s3 old new :
  s0 ⊆ s1 -> s2 ⊆ s3 ->
  slot_rehomed workflowId executionId s1 s2 old new ->
  slot_rehomed workflowId executionId s0 s3 old new.
Proof.
  intros H01 H23 Hslot. destruct Hslot as [items items' Hitems |]; constructor.
  eapply Forall2_impl; [exact Hitems |].
  intros item item'. by apply item_rehomed_weaken.
Qed.

Lemma duplicate_slot_relates slot s slot' s' :
  duplicate_slot workflowId executionId slot s = (Fulfilled slot', s') ->
  s ⊆ s' ∧ slot_rehomed workflowId executionId s s' slot slot'.
Proof.
  unfold duplicate_slot. destruct slot as [items |].
  - intros (items' & s1 & Hitems & Hret)%Dup_bind_fulfilled.
    apply Dup_ret_fulfilled in Hret as [-> ->].
    apply (mapM_relates _ (item_rehomed workflowId executionId)) in Hitems
      as [Hsub Hall];
      [| apply item_rehomed_weaken | apply duplicate_item_relates].
    split; [done | by constructor].
  - intros [-> ->]%Dup_ret_fulfilled. split; [done | constructor].
Qed.

Lemma duplicateBinaryData_relates out s out' s' :
  duplicateBinaryData workflowId executionId out s = (Fulfilled out', s') ->
  s ⊆ s' ∧ output_rehomed workflowId executionId s s' out out'.
Proof.
  unfold duplicateBinaryData, output_rehomed.
  apply mapM_relates; [apply slot_rehomed_weaken | apply duplicate_slot_relates].
Qed.
End Rehoming.

Section RehomingProgress.
Variables workflowId executionId : option string.

Lemma resolves_weaken s s' ref : s ⊆ s' -> resolves s ref -> resolves s' ref.
Proof. intros Hsub Hres. unfold resolves in *. by eapply lookup_weaken_is_Some. Qed.

Lemma Forall_resolves_weaken s s' refs :
  s ⊆ s' -> Forall (resolves s) refs -> Forall (resolves s') refs.
Proof.
  intros Hsub Hall. eapply Forall_impl; [exact Hall |].
  intros ref. by apply resolves_weaken.
Qed.

Lemma duplicate_property_progress p s :
  resolves s p.2 ->
  exists p' s', duplicate_property workflowId executionId p s = (Fulfilled p', s').
Proof.
  intros Hres. destruct (duplicate_reference_progress workflowId executionId _ _ Hres)
    as (ref & s1 & Href).
  exists (p.1, ref), s1. unfold duplicate_property. by rewrite (Dup_bind_run _ _ _ _ _ Href).
Qed.

Lemma duplicate_item_progress item s :
  Forall (resolves s) (item_references item) ->
  exists item' s', duplicate_item workflowId executionId item s = (Fulfilled item', s').
Proof.
  unfold item_references, duplicate_item. destruct (binary item) as [props |].
  - intros Hall. rewrite Forall_fmap in Hall.
    destruct (mapM_progress (duplicate_property workflowId executionId)
                (fun s p => resolves s p.2)) with (l := props) (s := s)
      as (props' & s1 & Hprops).
    + intros s0 s0' p. apply resolves_weaken.
    + intros p s0 p' s0' Hrun.
      by destruct (duplicate_property_relates workflowId executionId _ _ _ _ Hrun).
    + apply duplicate_property_progress.
    + exact Hall.
    + eexists _, s1. by rewrite (Dup_bind_run _ _ _ _ _ Hprops).
  - intros _. by eexists _, s.
Qed.

Lemma duplicate_slot_progress slot s :
  Forall (resolves s) (slot_references slot) ->
  exists slot' s', duplicate_slot workflowId executionId slot s = (Fulfilled slot', s').
Proof.
  unfold slot_references, duplicate_slot. destruct slot as [items |]; simpl.
  - intros Hall. rewrite Forall_bind in Hall.
    destruct (mapM_progress (duplicate_item workflowId executionId)
                (fun s item => Forall (resolves s) (item_references item)))
      with (l := items) (s := s) as (items' & s1 & Hitems).
    + intros s0 s0' item. apply Forall_resolves_weaken.
    + intros item s0 item' s0' Hrun.
      by destruct (duplicate_item_relates workflowId executionId _ _ _ _ Hrun).
    + apply duplicate_item_progress.
    + exact Hall.
    + eexists _, s1. by rewrite (Dup_bind_run _ _ _ _ _ Hitems).
  - intros _. by eexists _, s.
Qed.

Lemma duplicateBinaryData_progress out s :
  Forall (resolves s) (output_references out) ->
  exists out' s', duplicateBinaryData workflowId executionId out s = (Fulfilled out', s').
Proof.
  unfold output_references. intros Hall. rewrite Forall_bind in Hall.
  apply (mapM_progress (duplicate_slot workflowId executionId)
           (fun s slot => Forall (resolves s) (slot_references slot))).
  - intros s0 s0' slot. apply Forall_resolves_weaken.
  - intros slot s0 slot' s0' Hrun.
    by destruct (duplicate_slot_relates workflowId executionId _ _ _ _ Hrun).
  - apply duplicate_slot_progress.
  - exact Hall.
Qed.

Lemma item_references_rehomed s s' item item' :
  item_rehomed workflowId executionId s s' item item' ->
  Forall2 (rehomed workflowId executionId s s') (item_references item) (item_references item').
Proof.
  intros [_ Hbinary]. unfold item_references.
  destruct Hbinary as [props props' Hprops |]; [| constructor].
  apply Forall2_fmap. eapply Forall2_impl; [exact Hprops |].
  by intros p p' [_ Href].
Qed.

Lemma output_references_rehomed s s' out out' :
  output_rehomed workflowId executionId s s' out out' ->
  Forall2 (rehomed workflowId executionId s s') (output_references out) (output_references out').
Proof.
  intros Hout. unfold output_references. apply Forall2_bind.
  eapply Forall2_impl; [exact Hout |]. intros slot slot' Hslot.
  apply Forall2_bind. destruct Hslot as [items items' Hitems |]; simpl; [| constructor].
  eapply Forall2_impl; [exact Hitems |]. apply item_references_rehomed.
Qed.
End RehomingProgress.

Lemma rehomed_resolved (workflowId executionId : option string)
    (before after : BinaryStore) (old new : IBinaryData) :
  rehomed workflowId executionId before after old new ->
  resolves before old ->
  id new ≠ id old ∧ after !! id new = before !! id old.
Proof.
  intros (_ & Hfree & _ & Hbytes & _) [bytes Hold]. split.
  - intros Heq. rewrite Heq in Hfree. congruence.
  - rewrite Hold. by apply Hbytes.
Qed.

(** C1: when the nested execution succeeds, [executeWorkflow] is the
    duplication of its result under the parent's workflow id and the
    parent's execution id.  Whatever it then returns has the shape of the
    result with every binary-data reference replaced by a duplicate: an
    id in the parent's scope that the store did not hold before, holding
    the bytes of the original, everything else of the store untouched.
    When the references of the result resolve in the store, it does
    return, and each returned reference has an id other than the
    original's, in the parent's scope, with the original's bytes. *)
Theorem executeWorkflow_rehomes
    (invoker : IExecuteWorkflowInfo -> IWorkflowExecuteAdditionalData ->
               ExecuteWorkflowOptions -> BinaryStore -> Settled WorkflowOutput * BinaryStore)
    (ctx : ExecutionContext) (workflowInfo : IExecuteWorkflowInfo)
    (inputData : option (list INodeExecutionData)) (parentCallbackManager : option string)
    (store store1 : BinaryStore) (result : WorkflowOutput) :
  invoker workflowInfo (additionalData ctx)
    (executeWorkflow_options ctx inputData parentCallbackManager) store
    = (Fulfilled result, store1) ->
  let workflowId := workflow_id (workflow ctx) in
  let executionId := executionId (additionalData ctx) in
  let run := executeWorkflow invoker ctx workflowInfo inputData parentCallbackManager store in
  run = duplicateBinaryData workflowId executionId result store1 ∧
  (forall out store2, run = (Fulfilled out, store2) ->
     store1 ⊆ store2 ∧
     output_rehomed workflowId executionId store1 store2 result out ∧
     Forall2 (rehomed workflowId executionId store1 store2)
       (output_references result) (output_references out)) ∧
  (Forall (resolves store1) (output_references result) ->
   exists out store2,
     run = (Fulfilled out, store2) ∧
     Forall2 (fun old new =>
                id new ≠ id old ∧
                (id new).1 = (workflowId, executionId) ∧
                store2 !! id new = store1 !! id old)
       (output_references result) (output_references out)).
Proof.
  intros Hnested workflowId executionId run.
  assert (run = duplicateBinaryData workflowId executionId result store1) as Hrun.
  { subst run. unfold executeWorkflow. by rewrite Hnested. }
  assert (forall out store2, run = (Fulfilled out, store2) ->
            store1 ⊆ store2 ∧
            output_rehomed workflowId executionId store1 store2 result out ∧
            Forall2 (rehomed workflowId executionId store1 store2)
              (output_references result) (output_references out)) as Hrelates.
  { intros out store2 Hout. rewrite Hrun in Hout.
    apply duplicateBinaryData_relates in Hout as [Hsub Hout].
    split_and!; [done | done | by apply output_references_rehomed]. }
  split_and!; [done | done |].
  intros Hall.
  destruct (duplicateBinaryData_progress workflowId executionId result store1 Hall)
    as (out & store2 & Hout).
  rewrite <- Hrun in Hout. exists out, store2. split; [done |].
  destruct (Hrelates out store2 Hout) as (_ & _ & Hrefs).
  clear Hout Hrelates. induction Hrefs as [| old new olds news Hpair _ IH]; [constructor |].
  apply Forall_cons in Hall as [Hold Hall]. constructor; [| by apply IH].
  destruct (rehomed_resolved _ _ _ _ _ _ Hpair Hold) as [Hne Hsame].
  destruct Hpair as (Hscope & _). by split_and!.
Qed.

Lemma executeWorkflow_rehomes_witness :
  exists out store2,
    executeWorkflow nested_run merge_context sub_workflow None None ∅
      = (Fulfilled out, store2).
Proof.
  destruct (executeWorkflow_rehomes nested_run merge_context sub_workflow None None
              ∅ (<[report_id := report_bytes]> ∅)
              [Some [plain_item "summary"; report_item]; None])
    as (_ & _ & Hprogress); [reflexivity |].
  destruct Hprogress as (out & store2 & Hrun & _).
  - repeat constructor. unfold resolves. simpl. rewrite lookup_insert_eq. by eexists.
  - by exists out, store2.
Defined.

(** The same run, computed: the reference handed to the node lives under
    the parent's workflow and execution, and the store holds the payload
    twice. *)
Example executeWorkflow_nested_run :
  let run := executeWorkflow nested_run merge_context sub_workflow None None ∅ in
  run.1 =
    Fulfilled
      [Some [plain_item "summary";
             {| json := "{}";
                binary :=
                  Some [("data",
                         {| id := (Some "wf-42", Some "1001", 1);
                            mimeType := "application/pdf";
                            fileSize := 4 |})] |}];
       None] ∧
  run.2 !! report_id = Some report_bytes ∧
  run.2 !! ((Some "wf-42", Some "1001", 1) : BinaryId) = Some report_bytes.
Proof. repeat split; vm_compute; reflexivity. Qed.

(** * Further properties *)

(** ** Data addressing, by cases *)


(** How [getInputData] ends on a connected channel, by where the index
    lies. *)
Lemma getInputData_connected (ctx : ExecutionContext) (inputName : string)
    (slots : list (option (list INodeExecutionData))) (inputIndex : Z) :
  inputData ctx !! inputName = Some slots ->
  getInputData ctx inputIndex inputName =
    if decide (Z.of_nat (length slots) < inputIndex)%Z then
      Throw (input_error "Could not get input with given index" inputIndex inputName)
    else if decide (inputIndex < 0 ∨ inputIndex = Z.of_nat (length slots))%Z then
      Return InputUndefined
    else
      match slots !! Z.to_nat inputIndex with
      | Some (Some items) => Return (Batch items)
      | _ => Throw (input_error "Value of input was not set" inputIndex inputName)
      end.
Proof.
  intros Hchannel. unfold getInputData. rewrite Hchannel.
  destruct (Z.ltb_spec (Z.of_nat (length slots)) inputIndex) as [Hpast | Hin].
  { by rewrite decide_True. }
  rewrite decide_False by lia.
  destruct (decide (inputIndex < 0 ∨ inputIndex = Z.of_nat (length slots))%Z)
    as [[Hneg | ->] | Hvalid].
  - by rewrite js_index_negative.
  - by rewrite js_index_length.
  - rewrite js_index_nat by lia.
    destruct (lookup_lt_is_Some_2 slots (Z.to_nat inputIndex)) as [slot Hslot]; [lia |].
    rewrite Hslot. by destruct slot.
Qed.

(** X1: [getInputData] fails with the index error, carrying the index and
    the channel, exactly when the channel is connected and the index is
    greater than the number of its slots. *)
Theorem getInputData_index_error_iff (ctx : ExecutionContext) (inputIndex : Z)
    (inputName : string) :
  getInputData ctx inputIndex inputName =
    Throw (input_error "Could not get input with given index" inputIndex inputName)
  ↔ exists slots,
      inputData ctx !! inputName = Some slots ∧ (Z.of_nat (length slots) < inputIndex)%Z.
Proof.
  split.
  - destruct (inputData ctx !! inputName) as [slots |] eqn:Hchannel.
    + rewrite (getInputData_connected _ _ _ _ Hchannel).
      destruct (decide (Z.of_nat (length slots) < inputIndex)%Z); [by eauto |].
      destruct (decide (inputIndex < 0 ∨ inputIndex = Z.of_nat (length slots))%Z); [done |].
      by destruct (slots !! Z.to_nat inputIndex) as [[] |].
    + unfold getInputData. by rewrite Hchannel.
  - intros (slots & Hchannel & Hpast).
    rewrite (getInputData_connected _ _ _ _ Hchannel). by rewrite decide_True.
Qed.


(** X3: a batch [getInputData] returns is never made up: it is the empty
    one of a channel that is not connected, or the batch supplied at
    construction for that slot of that channel. *)
Theorem getInputData_batch_was_supplied (ctx : ExecutionContext) (inputIndex : Z)
    (inputName : string) (items : list INodeExecutionData) :
  getInputData ctx inputIndex inputName = Return (Batch items) ->
  (inputData ctx !! inputName = None ∧ items = []) ∨
  (exists slots,
     inputData ctx !! inputName = Some slots ∧
     (0 ≤ inputIndex < Z.of_nat (length slots))%Z ∧
     slots !! Z.to_nat inputIndex = Some (Some items)).
Proof.
  destruct (inputData ctx !! inputName) as [slots |] eqn:Hchannel.
  - rewrite (getInputData_connected _ _ _ _ Hchannel). intros Hresult. right.
    destruct (decide (Z.of_nat (length slots) < inputIndex)%Z); [done |].
    destruct (decide (inputIndex < 0 ∨ inputIndex = Z.of_nat (length slots))%Z); [done |].
    destruct (slots !! Z.to_nat inputIndex) as [[batch |] |] eqn:Hslot; [| done | done].
    injection Hresult as ->. exists slots. split_and!; [done | lia | lia | done].
  - unfold getInputData. rewrite Hchannel. intros [= <-]. by left.
Qed.

Lemma getInputData_batch_was_supplied_witness :
  exists slots,
    inputData merge_context !! "main" = Some slots ∧
    slots !! 0 = Some (Some [plain_item "a"; plain_item "b"]).
Proof.
  destruct (getInputData_batch_was_supplied merge_context 0 "main"
              [plain_item "a"; plain_item "b"]) as [[Hnone _] | (slots & Hsome & _ & Hslot)].
  - vm_compute. reflexivity.
  - vm_compute in Hnone. discriminate Hnone.
  - exists slots. split; [exact Hsome | exact Hslot].
Defined.

(** X4: [getInputSourceData] fails with the source-data-missing error
    exactly when the provenance is [null]; no other way of ending gives
    that error. *)
Theorem getInputSourceData_missing_iff (ctx : ExecutionContext) (inputIndex : Z)
    (inputName : string) :
  getInputSourceData ctx inputIndex inputName =
    Throw (ApplicationError "Source data is missing" None)
  ↔ source (executeData ctx) = None.
Proof.
  unfold getInputSourceData. destruct (source (executeData ctx)) as [src |]; [| done].
  split; [| done].
  destruct (src !! inputName) as [slots |]; [| done].
  by destruct (js_index slots inputIndex) as [[] |].
Qed.

(** X5: [getInputSourceData] checks no bounds: for a recorded channel, an
    index below zero or past the last slot gives [undefined], where
    [getInputData] raises its index error past the length. *)
Theorem getInputSourceData_no_bounds_check (ctx : ExecutionContext) (inputIndex : Z)
    (inputName : string) (src : ITaskDataConnectionsSource)
    (slots : list (option ISourceData)) :
  source (executeData ctx) = Some src ->
  src !! inputName = Some slots ->
  (inputIndex < 0 ∨ Z.of_nat (length slots) ≤ inputIndex)%Z ->
  getInputSourceData ctx inputIndex inputName = Return SourceUndefined.
Proof.
  intros Hsrc Hchannel Hout. unfold getInputSourceData. rewrite Hsrc, Hchannel.
  destruct Hout as [Hneg | Hpast].
  - by rewrite js_index_negative.
  - rewrite js_index_nat by lia. rewrite lookup_ge_None_2; [done | lia].
Qed.

Lemma getInputSourceData_no_bounds_check_witness :
  getInputSourceData merge_context 7 "main" = Return SourceUndefined ∧
  getInputData merge_context 7 "main" =
    Throw (input_error "Could not get input with given index" 7 "main").
Proof.
  split.
  - apply (getInputSourceData_no_bounds_check merge_context 7 "main" merge_sources
             [Some (upstream "Fetch"); None]);
      [reflexivity | vm_compute; reflexivity | right; simpl; lia].
  - vm_compute. reflexivity.
Defined.

(** ** What a run of calls leaves in the log and in the record *)

Lemma status_events_cons (c : ContextCall) (calls : list ContextCall) :
  status_events (c :: calls) = status_events [c] ++ status_events calls.
Proof. unfold status_events. rewrite !bind_cons. simpl. by rewrite app_nil_r. Qed.

Lemma events_run_microtasks (w : World) :
  events (run_microtasks w) = events w ++ pending_warnings (microtasks w).
Proof.
  unfold run_microtasks, pending_warnings.
  induction (microtasks w) as [| r rs IH] using rev_ind; simpl.
  - by rewrite app_nil_r.
  - rewrite foldl_app. simpl. rewrite events_run_reaction, IH.
    rewrite bind_app. simpl. by rewrite app_nil_r, app_assoc.
Qed.

Section CallsProperties.

Variable helper : AddExecutionDataArgs -> IRunExecutionData -> Settled unit * IRunExecutionData.

Lemma microtasks_call_helper (args : AddExecutionDataArgs) (w : World) :
  microtasks (call_addExecutionDataFunctions helper args w) =
    microtasks w ++
      [{| reaction_promise := (helper args (runExecutionData w)).1;
          reaction_direction := arg_type args;
          reaction_nodeName := arg_nodeName args |}].
Proof.
  unfold call_addExecutionDataFunctions. by destruct (helper args (runExecutionData w)).
Qed.

Lemma record_call_helper (args : AddExecutionDataArgs) (w : World) :
  runExecutionData (call_addExecutionDataFunctions helper args w) =
    (helper args (runExecutionData w)).2.
Proof.
  unfold call_addExecutionDataFunctions. by destruct (helper args (runExecutionData w)).
Qed.

Lemma run_call_events (w : World) (c : ContextCall) :
  events (run_call helper w c) = events w ++ status_events [c].
Proof.
  destruct c as [ctx ct data | ctx ct idx data | ctx t]; unfold run_call.
  - rewrite addInputData_unfold. simpl. by rewrite events_call_helper, app_nil_r.
  - unfold addOutputData. simpl. by rewrite events_call_helper, app_nil_r.
  - unfold putExecutionToWait, status_events. simpl.
    destruct (has_setExecutionStatus (additionalData ctx)); simpl; by rewrite ?app_nil_r.
Qed.

Lemma run_call_pending (w : World) (c : ContextCall) :
  pending_warnings (microtasks (run_call helper w c)) =
    pending_warnings (microtasks w) ++ call_warnings helper w c.
Proof.
  unfold pending_warnings, call_warnings.
  destruct c as [ctx ct data | ctx ct idx data | ctx t]; unfold run_call, helper_args.
  - rewrite addInputData_unfold. simpl. rewrite microtasks_call_helper, bind_app. simpl.
    by rewrite app_nil_r.
  - unfold addOutputData. simpl. rewrite microtasks_call_helper, bind_app. simpl.
    by rewrite app_nil_r.
  - unfold putExecutionToWait. simpl. rewrite app_nil_r.
    by destruct (has_setExecutionStatus (additionalData ctx)).
Qed.

Lemma run_calls_cons (c : ContextCall) (calls : list ContextCall) (w : World) :
  run_calls helper (c :: calls) w = run_calls helper calls (run_call helper w c).
Proof. reflexivity. Qed.

Lemma run_calls_events (calls : list ContextCall) (w : World) :
  events (run_calls helper calls w) = events w ++ status_events calls.
Proof.
  revert w. induction calls as [| c calls IH]; intros w.
  - simpl. by rewrite app_nil_r.
  - rewrite run_calls_cons, IH, run_call_events.
    by rewrite (status_events_cons c calls), app_assoc.
Qed.

Lemma run_calls_pending (calls : list ContextCall) (w : World) :
  pending_warnings (microtasks (run_calls helper calls w)) =
    pending_warnings (microtasks w) ++ rejected_warnings helper calls w.
Proof.
  revert w. induction calls as [| c calls IH]; intros w.
  - simpl. by rewrite app_nil_r.
  - rewrite run_calls_cons, IH, run_call_pending. simpl. by rewrite app_assoc.
Qed.

(** X6: whatever the node calls and however the helper ends, nothing but the
    status notifications is logged while the calls run; once the pending
    callbacks have run, the log holds in addition one warning for each
    call whose promise was rejected, and nothing else. *)
Theorem calls_log_one_warning_per_rejection (calls : list ContextCall) (w : World) :
  events (run_calls helper calls w) = events w ++ status_events calls ∧
  events (run_microtasks (run_calls helper calls w)) ≡ₚ
    events (run_microtasks w) ++ status_events calls ++ rejected_warnings helper calls w.
Proof.
  split; [apply run_calls_events |].
  rewrite !events_run_microtasks, run_calls_events, run_calls_pending.
  rewrite <- !app_assoc. f_equiv. rewrite !app_assoc. f_equiv. apply Permutation_app_comm.
Qed.

End CallsProperties.

Section IndexOrder.

Variable helper : AddExecutionDataArgs -> IRunExecutionData -> Settled unit * IRunExecutionData.

(** The helper never drops an attempt it finds in the record. *)
Hypothesis helper_keeps_attempts : forall args r nodeName,
  recorded_attempts nodeName r ≤ recorded_attempts nodeName (helper args r).2.

Lemma run_call_keeps_attempts (w : World) (c : ContextCall) (nodeName : string) :
  recorded_attempts nodeName (runExecutionData w) ≤
  recorded_attempts nodeName (runExecutionData (run_call helper w c)).
Proof.
  destruct c as [ctx ct data | ctx ct idx data | ctx t]; unfold run_call.
  - rewrite addInputData_unfold. simpl. rewrite record_call_helper.
    apply helper_keeps_attempts.
  - unfold addOutputData. simpl. rewrite record_call_helper. apply helper_keeps_attempts.
  - unfold putExecutionToWait. simpl.
    by destruct (has_setExecutionStatus (additionalData ctx)).
Qed.

Lemma run_calls_keeps_attempts (calls : list ContextCall) (w : World) (nodeName : string) :
  recorded_attempts nodeName (runExecutionData w) ≤
  recorded_attempts nodeName (runExecutionData (run_calls helper calls w)).
Proof.
  revert w. induction calls as [| c calls IH]; intros w; [done |].
  rewrite run_calls_cons. etrans; [apply (run_call_keeps_attempts w c) | apply IH].
Qed.

(** X7: with a helper that never drops attempts, the index a later
    [addInputData] of the node returns is never below the one an earlier
    call returned, whatever the node called in between. *)
Theorem addInputData_index_never_decreases (ctx : ExecutionContext)
    (connectionType connectionType' : string) (data data' : ExecutionDataOrError)
    (calls : list ContextCall) (w : World) :
  let first := addInputData helper ctx connectionType data w in
  let second :=
    addInputData helper ctx connectionType' data' (run_calls helper calls first.2) in
  exists i j,
    first.1 = Return {| index := i |} ∧ second.1 = Return {| index := j |} ∧ (i ≤ j)%Z.
Proof.
  intros first second. subst first second. rewrite !addInputData_unfold. simpl.
  eexists _, _. split_and!; [done | done |].
  apply inj_le. etrans; [| apply run_calls_keeps_attempts].
  rewrite record_call_helper. apply helper_keeps_attempts.
Qed.

End IndexOrder.

Lemma recorded_attempts_append_run (nodeName name : string) (task : ITaskData)
    (r : IRunExecutionData) :
  recorded_attempts nodeName r ≤ recorded_attempts nodeName (append_run name task r).
Proof.
  unfold recorded_attempts, append_run. simpl.
  destruct (decide (name = nodeName)) as [-> | Hne].
  - rewrite lookup_insert_eq, length_app. simpl.
    destruct (runData (resultData r) !! nodeName); simpl; lia.
  - by rewrite lookup_insert_ne.
Qed.

Lemma recording_helper_keeps_attempts (args : AddExecutionDataArgs)
    (r : IRunExecutionData) (nodeName : string) :
  recorded_attempts nodeName r ≤ recorded_attempts nodeName (recording_helper args r).2.
Proof.
  unfold recording_helper. destruct (decide (arg_connectionType args = "main")); [done |].
  destruct (arg_type args); simpl; [apply recorded_attempts_append_run | done].
Qed.

Lemma addInputData_index_never_decreases_witness :
  exists i j,
    (addInputData recording_helper merge_context "ai_tool" (ExecutionData []) fresh_world).1
      = Return {| index := i |} ∧
    (addInputData recording_helper merge_context "ai_tool" (ExecutionData [])
       (run_calls recording_helper
          [CallWait merge_context 5; CallAddOutput merge_context "ai_tool" 0 (ExecutionData [])]
          (addInputData recording_helper merge_context "ai_tool" (ExecutionData [])
             fresh_world).2)).1
      = Return {| index := j |} ∧
    (i ≤ j)%Z.
Proof.
  apply (addInputData_index_never_decreases recording_helper recording_helper_keeps_attempts
           merge_context "ai_tool" "ai_tool" (ExecutionData []) (ExecutionData [])
           [CallWait merge_context 5; CallAddOutput merge_context "ai_tool" 0 (ExecutionData [])]
           fresh_world).
Defined.

(** ** What a firing of the signal does *)




Lemma run_listener_keeps_others l s x :
  signal_inv s -> l ∈ listeners s ->
  x ∈ listeners s -> listener_fn x ≠ listener_fn l -> x ∈ listeners (run_listener l s).
Proof.
  intros Hs Hl Hx Hne.
  destruct (run_listener_grows l s Hs Hl) as (_ & Hkeep & _). apply Hkeep.
  unfold before_handler. simpl. by apply list_elem_of_filter.
Qed.




Lemma run_listener_quiet l s :
  signal_inv s -> l ∈ listeners s -> quiet l ->
  listeners (run_listener l s) = filter (fun x => listener_fn x ≠ listener_fn l) (listeners s).
Proof.
  intros Hs Hl Hquiet. rewrite run_listener_signal by by apply (inv_signal s Hs).
  simpl. rewrite Hquiet. simpl. by destruct (handler_throws (listener_handler l)).
Qed.

Lemma filter_none {A : Type} (P : A -> Prop) `{forall x, Decision (P x)} (l : list A) :
  (forall x, x ∈ l -> ¬ P x) -> filter P l = [].
Proof.
  induction l as [| x l IH]; intros Hnone; [done |].
  rewrite filter_cons_False by (apply Hnone; left).
  apply IH. intros y Hy. apply Hnone. by right.
Qed.

Lemma dispatch_loop_quiet snapshot s :
  signal_inv s ->
  NoDup (listener_fn <$> snapshot) ->
  (forall l, l ∈ snapshot -> l ∈ listeners s) ->
  Forall quiet snapshot ->
  listeners
    (foldl (fun s l => if decide (listener_fn l ∈ registered_fns s) then run_listener l s else s)
       s snapshot)
    = filter (fun x => listener_fn x ∉ listener_fn <$> snapshot) (listeners s).
Proof.
  revert s. induction snapshot as [| l snapshot IH]; intros s Hs Hnodup Hall Hquiet; simpl.
  - rewrite filter_all; [done |]. intros x _ Hx. by apply elem_of_nil in Hx.
  - rewrite fmap_cons in Hnodup. apply NoDup_cons in Hnodup as [Hl Hnodup].
    apply Forall_cons in Hquiet as [Hquiet_l Hquiet].
    assert (l ∈ listeners s) as Hin by (apply Hall; left).
    rewrite decide_True by by apply list_elem_of_fmap_2.
    rewrite IH.
    + rewrite run_listener_quiet by done. rewrite list_filter_filter.
      apply list_filter_iff. intros x. rewrite not_elem_of_cons. tauto.
    + by apply run_listener_inv.
    + done.
    + intros x Hx. apply run_listener_keeps_others; [done | done | apply Hall; by right |].
      intros Heq. apply Hl. rewrite <- Heq. by apply list_elem_of_fmap_2.
    + done.
Qed.

(** X9: when none of the registered handlers registers a handler in turn, a
    firing leaves the signal without listeners, and a second firing right
    after it changes nothing: no handler runs and nothing is recorded. *)
Theorem second_abort_is_silent (ops : list SignalOp) :
  let s := run_signal ops new_signal in
  Forall quiet (listeners s) ->
  listeners (dispatch_abort s) = [] ∧
  dispatch_abort (dispatch_abort s) = dispatch_abort s.
Proof.
  intros s Hquiet. pose proof (run_signal_inv ops new_signal signal_inv_new) as Hs.
  fold s in Hs.
  assert (listeners (dispatch_abort s) = []) as Hempty.
  { unfold dispatch_abort. rewrite dispatch_loop_quiet;
      [| done | apply (inv_nodup s Hs) | done | done].
    apply filter_none. intros x Hx Hnot. apply Hnot. by apply list_elem_of_fmap_2. }
  split; [done |]. unfold dispatch_abort at 1. by rewrite Hempty.
Qed.

Lemma second_abort_is_silent_witness :
  let s := run_signal [Register merge_context (logger 5); Register merge_context (logger 6)]
             new_signal in
  listeners (dispatch_abort s) = [] ∧
  dispatch_abort (dispatch_abort s) = dispatch_abort s.
Proof.
  apply (second_abort_is_silent
           [Register merge_context (logger 5); Register merge_context (logger 6)]).
  repeat constructor.
Defined.

(** ** Failure of the nested execution *)



(** ** Console output of a node *)

Section NodeOutputProperties.

Variable Date_toString : option Z -> string.
Variable sendDataToUI : option (string -> string -> list UiValue -> Completion unit).
Variable CODE_ENABLE_STDOUT : option string.


Lemma to_ui_value_throws (arg : ConsoleArg) :
  ¬ has_properties arg -> exists e, to_ui_value Date_toString arg = Throw e.
Proof.
  intros Hnot. destruct arg as [| | ts reason | time | repr]; simpl; eauto;
    exfalso; apply Hnot; by split.
Qed.


Lemma map_to_ui_throws (args : list ConsoleArg) :
  ¬ Forall has_properties args ->
  exists e, map_completion (to_ui_value Date_toString) args = Throw e.
Proof.
  induction args as [| arg args IH]; intros Hnot.
  - exfalso. apply Hnot. constructor.
  - simpl. destruct (to_ui_value Date_toString arg) as [v | e] eqn:Hv; [| by eauto].
    destruct IH as [e ->]; [| by eauto].
    intros Hall. apply Hnot. constructor; [| done].
    destruct arg; simpl in Hv; try done; by split.
Qed.

(** X11: in manual mode with the UI attached, one argument that is [null] or
    [undefined] is enough for nothing to reach the UI: the whole message
    is given up, and a single warning is logged instead. *)
Theorem sendMessageToUI_null_argument (ctx : ExecutionContext) (args : list ConsoleArg)
    (log : list OutputEvent)
    (send : string -> string -> list UiValue -> Completion unit) :
  mode ctx = ModeManual ->
  sendDataToUI = Some send ->
  ¬ Forall has_properties args ->
  exists message,
    sendMessageToUI Date_toString sendDataToUI ctx args log
      = (Return tt, log ++ [Warn ("There was a problem sending message to UI: " +:+ message)]).
Proof.
  intros Hmode Hsend Hnot. destruct (map_to_ui_throws args Hnot) as [e He].
  exists (error_message e).
  unfold sendMessageToUI, send_console_message. by rewrite Hmode, Hsend, He.
Qed.


Lemma sendMessageToUI_new_events (ctx : ExecutionContext) (args : list ConsoleArg)
    (log : list OutputEvent) :
  exists new,
    sendMessageToUI Date_toString sendDataToUI ctx args log = (Return tt, log ++ new) ∧
    Forall (fun e => ¬ is_console_log e) new ∧
    (new ≠ [] -> mode ctx = ModeManual ∧ sendDataToUI ≠ None).
Proof.
  unfold sendMessageToUI, send_console_message.
  destruct (mode ctx) eqn:Hmode;
    try (exists []; rewrite app_nil_r; split_and!; [done | constructor | done]).
  destruct sendDataToUI as [send |].
  2: { exists []. rewrite app_nil_r. split_and!; [done | constructor | done]. }
  destruct (map_completion (to_ui_value Date_toString) args) as [messages | e].
  - destruct (send "sendConsoleMessage" (ui_source ctx) messages) as [[] | e].
    + eexists [_]. split_and!; [done | | done].
      repeat first [apply Forall_nil_2 | apply Forall_cons_2; [by intros [] |]].
    + eexists [_; _]. rewrite <- app_assoc. split_and!; [done | | done].
      repeat first [apply Forall_nil_2 | apply Forall_cons_2; [by intros [] |]].
  - eexists [_]. split_and!; [done | | done].
    repeat first [apply Forall_nil_2 | apply Forall_cons_2; [by intros [] |]].
Qed.

(** X13: [logNodeOutput] never throws and only adds to the log.  What it adds
    reaches the UI or the logger in manual mode only, and the console
    outside manual mode only, and then only if [CODE_ENABLE_STDOUT] is
    exactly ['true']: in manual mode nothing is printed even with the flag
    set, and elsewhere nothing is sent to the UI even with a UI attached. *)
Theorem logNodeOutput_channels (ctx : ExecutionContext) (args : list ConsoleArg)
    (log : list OutputEvent) :
  exists new,
    logNodeOutput Date_toString sendDataToUI CODE_ENABLE_STDOUT ctx args log
      = (Return tt, log ++ new) ∧
    (Exists is_console_log new ->
     mode ctx ≠ ModeManual ∧ CODE_ENABLE_STDOUT = Some "true" ∧
     new = [ConsoleLog (stdout_prefix ctx) args]) ∧
    (Exists (fun e => is_ui_message e ∨ is_warning e) new ->
     mode ctx = ModeManual ∧ sendDataToUI ≠ None) ∧
    (mode ctx ≠ ModeManual -> CODE_ENABLE_STDOUT ≠ Some "true" -> new = []).
Proof.
  assert (mode ctx = ModeManual ∨ mode ctx ≠ ModeManual) as [Hmanual | Hother]
    by (destruct (mode ctx); (by left) || (by right)).
  - destruct (sendMessageToUI_new_events ctx args log) as (new & Hrun & Hquiet & Hwhen).
    exists new. split_and!.
    + unfold logNodeOutput. by rewrite Hmanual.
    + intros Hlog. exfalso. apply Exists_exists in Hlog as (e & He & Hlog).
      rewrite Forall_forall in Hquiet. by apply (Hquiet e).
    + intros Hsome. apply Hwhen. intros ->. by apply Exists_nil in Hsome.
    + done.
  - assert (logNodeOutput Date_toString sendDataToUI CODE_ENABLE_STDOUT ctx args log =
            if decide (CODE_ENABLE_STDOUT = Some "true")
            then (Return tt, log ++ [ConsoleLog (stdout_prefix ctx) args])
            else (Return tt, log)) as ->.
    { unfold logNodeOutput. by destruct (mode ctx). }
    destruct (decide (CODE_ENABLE_STDOUT = Some "true")) as [Hflag | Hflag].
    + eexists [_]. split_and!; [done | done | | done].
      intros (e & He & Hkind)%Exists_exists.
      apply list_elem_of_singleton in He as ->. by destruct Hkind.
    + exists []. rewrite app_nil_r. split_and!; [done | | | done].
      all: by intros ?%Exists_nil.
Qed.

End NodeOutputProperties.

Lemma sendMessageToUI_null_argument_witness :
  exists message,
    sendMessageToUI utc_toString (Some ui_ok) merge_context [ArgValue "total"; ArgNull] []
      = (Return tt, [Warn ("There was a problem sending message to UI: " +:+ message)]).
Proof.
  apply (sendMessageToUI_null_argument utc_toString (Some ui_ok) merge_context
           [ArgValue "total"; ArgNull] [] ui_ok); [reflexivity | reflexivity |].
  intros Hall. apply Forall_cons in Hall as [_ Hall].
  apply Forall_cons in Hall as [[Hnull _] _]. by apply Hnull.
Defined.


(** A valid Luxon date, an invalid one and a number, with the UI gone:
    the message goes out once, and the failure ends in the log. *)
Example sendMessageToUI_dates :
  sendMessageToUI utc_toString (Some ui_down) merge_context
    [ArgLuxon 0 None; ArgLuxon 0 (Some "unparsable"); ArgValue "42"] []
  = (Return tt,
     [SendDataToUI "sendConsoleMessage" (ui_source merge_context)
        [UiText "Thu Jan 01 1970 00:00:00 GMT+0000 (Coordinated Universal Time)";
         UiSpread 0 (Some "unparsable");
         UiArg (ArgValue "42")];
      Warn "There was a problem sending message to UI: push connection closed"]).
Proof. vm_compute. reflexivity. Qed.

(** ** Completions *)




Section CompletionsProperties.

Variable Number : CodeUnits -> JsNumber.
Variable getCompletionsAtPosition : Z -> option CompletionInfo.
Variable cmPosToTs : Z -> Z.


(** X15: the boost of an option is a number one can sort by: never NaN and
    never negative zero; it is the negated [Number(sortText)] whenever
    that is a number other than zero, and zero otherwise. *)
Theorem completion_boost_sortable (pos : Z) (result : CompletionResult) (option_ : EditorCompletion) :
  getCompletionsAtPos Number getCompletionsAtPosition cmPosToTs pos = Some result ->
  option_ ∈ result_options result ->
  boost option_ ≠ NaN ∧
  boost option_ ≠ Signed true MagZero ∧
  exists info entry,
    getCompletionsAtPosition (cmPosToTs pos) = Some info ∧
    entry ∈ info_entries info ∧
    label option_ = entry_name entry ∧
    boost option_ =
      match Number (entry_sortText entry) with
      | NaN | Signed _ MagZero => js_zero
      | Signed negative magnitude => Signed (negb negative) magnitude
      end.
Proof.
  unfold getCompletionsAtPos.
  destruct (getCompletionsAtPosition (cmPosToTs pos)) as [info |]; [| done].
  intros [= <-]. simpl.
  intros (entry & -> & [_ Hentry]%list_elem_of_filter)%list_elem_of_fmap.
  assert (boost (to_completion Number entry) =
          match Number (entry_sortText entry) with
          | NaN | Signed _ MagZero => js_zero
          | Signed negative magnitude => Signed (negb negative) magnitude
          end) as Hboost.
  { unfold to_completion. simpl. by destruct (Number (entry_sortText entry)) as [| [] []]. }
  split_and!.
  - rewrite Hboost. by destruct (Number (entry_sortText entry)) as [| [] []].
  - rewrite Hboost. by destruct (Number (entry_sortText entry)) as [| [] []].
  - by exists info, entry.
Qed.

End CompletionsProperties.

Lemma completion_boost_sortable_witness :
  exists info entry,
    three_entries 0 = Some info ∧
    entry ∈ info_entries info ∧
    entry_name entry = "items".
Proof.
  destruct (completion_boost_sortable eleven_Number three_entries (fun pos => pos) 0
              {| result_from := 0;
                 result_options :=
                   [{| label := "items"; boost := Signed true (MagFinite 11 0) |}] |}
              {| label := "items"; boost := Signed true (MagFinite 11 0) |})
    as (_ & _ & info & entry & Hinfo & Hentry & Hname & _).
  - vm_compute. reflexivity.
  - apply list_elem_of_here.
  - exists info, entry. split_and!; [exact Hinfo | exact Hentry | by rewrite <- Hname].
Defined.

(** The global sorts at ['15'] and is left out, the warning is left out
    whatever it sorts at, the local is offered with boost -11. *)
Example getCompletionsAtPos_three_entries :
  getCompletionsAtPos eleven_Number three_entries (fun pos => pos) 7
  = Some {| result_from := 7;
            result_options :=
              [{| label := "items"; boost := Signed true (MagFinite 11 0) |}] |}.
Proof. vm_compute. reflexivity. Qed.
